(** * TOON codec of formats/converters.py: [dict_to_toon] and [toon_to_dict]

    A shallow embedding of the encoder [dict_to_toon] (with its local
    helper [_format_value]) and of the decoder [toon_to_dict] (with its
    local helpers [_parse_value] and [_parse_lines]), followed by the
    properties of the codec.

    Python [str] values are modelled as lists of characters whose code
    points lie in 0..255; the built-in string methods the codec calls
    ([strip], [lstrip], [lower], [isdigit], [split], [join], [startswith],
    [endswith], [in]) are defined below with their behaviour on that
    range. *)

From Stdlib Require Import Ascii String List ZArith NArith Arith Bool Lia.
From Stdlib Require Import DecimalString DecimalN DecimalFacts.
Import ListNotations.

Set Warnings "-register-all".

Local Open Scope list_scope.
Local Open Scope nat_scope.

(** ** Python strings *)

Definition str := list ascii.

(** [py "text"] is the Python string literal ["text"]. *)
Definition py (s : string) : str := list_ascii_of_string s.

Definition code (c : ascii) : nat := nat_of_ascii c.

Definition ascii_eqb (a b : ascii) : bool := Ascii.eqb a b.

Fixpoint str_eqb (a b : str) : bool :=
  match a, b with
  | [], [] => true
  | x :: a', y :: b' => ascii_eqb x y && str_eqb a' b'
  | _, _ => false
  end.

(** [c.isspace()]: on code points 0..255 the whitespace characters are
    TAB..CR, FS..US, SPACE, NEL (0x85) and NBSP (0xA0). *)
Definition isspace (c : ascii) : bool :=
  let n := code c in
  ((9 <=? n) && (n <=? 13)) || ((28 <=? n) && (n <=? 32))
  || (n =? 133) || (n =? 160).

(** The characters [int()] accepts as digits: '0'..'9'. *)
Definition isdecimal_char (c : ascii) : bool :=
  let n := code c in (48 <=? n) && (n <=? 57).

(** [c.isdigit()]: the decimal digits and, on code points 0..255, the
    superscript digits U+00B2, U+00B3 and U+00B9. *)
Definition isdigit_char (c : ascii) : bool :=
  let n := code c in
  isdecimal_char c || (n =? 178) || (n =? 179) || (n =? 185).

(** [c.lower()]: 'A'..'Z' and the Latin-1 capitals U+00C0..U+00DE (U+00D7,
    the multiplication sign, apart) move up by 32. *)
Definition lower_char (c : ascii) : ascii :=
  let n := code c in
  if ((65 <=? n) && (n <=? 90))
     || ((192 <=? n) && (n <=? 222) && negb (n =? 215))
  then ascii_of_nat (n + 32) else c.

Definition lower (s : str) : str := map lower_char s.

(** [s.isdigit()]: at least one character, and all of them digits. *)
Definition isdigit (s : str) : bool :=
  match s with
  | [] => false
  | _ => forallb isdigit_char s
  end.

Fixpoint lstrip (s : str) : str :=
  match s with
  | [] => []
  | c :: s' => if isspace c then lstrip s' else s
  end.

Definition rstrip (s : str) : str := rev (lstrip (rev s)).

Definition strip (s : str) : str := rstrip (lstrip s).

(** [s.startswith(p)] *)
Fixpoint startswith (s p : str) : bool :=
  match p, s with
  | [], _ => true
  | x :: p', y :: s' => ascii_eqb x y && startswith s' p'
  | _ :: _, [] => false
  end.

(** [s.endswith(p)] *)
Definition endswith (s p : str) : bool := startswith (rev s) (rev p).

(** [sub in s] *)
Fixpoint contains (sub s : str) : bool :=
  startswith s sub ||
  match s with
  | [] => false
  | _ :: s' => contains sub s'
  end.

(** [sep.join(parts)] *)
Fixpoint join (sep : str) (parts : list str) : str :=
  match parts with
  | [] => []
  | [p] => p
  | p :: rest => p ++ sep ++ join sep rest
  end.

Definition cons_head (c : ascii) (pieces : list str) : list str :=
  match pieces with
  | [] => [[c]]
  | p :: ps => (c :: p) :: ps
  end.

(** [s.split(sep)] for a non-empty [sep]: the text is scanned from the
    left, every occurrence found closes the current piece and the scan
    goes on after it.  [skip] counts the characters of a matched
    separator that are still to be passed over. *)
Fixpoint split_from (sep s : str) (skip : nat) : list str :=
  match s with
  | [] => [[]]
  | c :: s' =>
      match skip with
      | S k => split_from sep s' k
      | O =>
          if startswith s sep
          then [] :: split_from sep s' (length sep - 1)
          else cons_head c (split_from sep s' 0)
      end
  end.

Definition split (sep s : str) : list str := split_from sep s 0.

(** [s.split(sep, 1)] when [sep in s]: the text before the first
    occurrence and the text after it. *)
Fixpoint split_once (sep s : str) : str * str :=
  if startswith s sep then ([], skipn (length sep) s)
  else match s with
       | [] => ([], [])
       | c :: s' => let (a, b) := split_once sep s' in (c :: a, b)
       end.

(** [len(line) - len(line.lstrip())] *)
Definition leading (line : str) : nat :=
  length line - length (lstrip line).

(** [not line.strip()] *)
Definition is_blank (line : str) : bool :=
  match strip line with
  | [] => true
  | _ => false
  end.

(** ** Integers and their decimal form *)

(** [str(z)] for an [int]: the decimal numeral, with a sign for a
    negative number.  The interpreter refuses, with [ValueError], to
    write or read a numeral of more than [default_max_str_digits]
    digits; the statements about Integers that go through [str] carry
    that bound ([digits], [int_ok]). *)
Definition str_int (z : Z) : str :=
  match z with
  | Z0 => py "0"
  | Zpos p => py (NilEmpty.string_of_uint (Pos.to_uint p))
  | Zneg p => py "-" ++ py (NilEmpty.string_of_uint (Pos.to_uint p))
  end.

(** [sys.int_info.default_max_str_digits] *)
Definition default_max_str_digits : nat := 4300.

(** The number of decimal digits of [z], sign left out. *)
Definition digits (z : Z) : nat := length (str_int (Z.abs z)).

Definition digit_value (c : ascii) : Z := Z.of_nat (code c - 48).

Definition decimal_step (acc : Z) (c : ascii) : Z :=
  (10 * acc + digit_value c)%Z.

(** Value of a string of decimal digits, most significant first. *)
Definition decimal_value (s : str) : Z := fold_left decimal_step s 0%Z.

(** ** Outcomes of a call *)

Inductive exn : Type := ValueError.

(** A call returns a value, raises, or, in the fuelled model of the
    recursive parser, runs out of fuel. *)
Inductive outcome (A : Type) : Type :=
| Return (a : A)
| Raise (e : exn)
| NoFuel.

Arguments Return {A} a.
Arguments Raise {A} e.
Arguments NoFuel {A}.

Definition bind {A B} (m : outcome A) (k : A -> outcome B) : outcome B :=
  match m with
  | Return a => k a
  | Raise e => Raise e
  | NoFuel => NoFuel
  end.

Notation "x <- m ;; k" := (bind m (fun x => k))
  (at level 61, m at next level, right associativity).

(** [int(token)], reached only for a token that passed [isdigit()]: the
    decimal digits are read in base ten, any other digit character is
    rejected with [ValueError].  (The interpreter's configurable limit
    on the length of a numeral is not modelled.) *)
Definition py_int (token : str) : outcome Z :=
  if forallb isdecimal_char token
  then Return (decimal_value token)
  else Raise ValueError.

(** ** Values, records and datasets *)

(** The values a field can hold.  A list holds strings, on which the
    encoder's [str(v)] is the identity. *)
Inductive value : Type :=
| VStr (s : str)
| VInt (z : Z)
| VBool (b : bool)
| VList (items : list str)
| VDict (fields : list (str * value)).

(** Induction over values that reaches the fields of an Object. *)
Section value_induction.
Variable P : value -> Prop.
Hypothesis Hstr : forall s, P (VStr s).
Hypothesis Hint : forall z, P (VInt z).
Hypothesis Hbool : forall b, P (VBool b).
Hypothesis Hlist : forall items, P (VList items).
Hypothesis Hdict :
  forall fields, Forall (fun kv => P (snd kv)) fields -> P (VDict fields).

Fixpoint value_nested_ind (v : value) : P v :=
  match v with
  | VStr s => Hstr s
  | VInt z => Hint z
  | VBool b => Hbool b
  | VList items => Hlist items
  | VDict fields =>
      Hdict fields
        ((fix all (fs : list (str * value))
            : Forall (fun kv => P (snd kv)) fs :=
            match fs with
            | [] => Forall_nil _
            | kv :: fs' =>
                Forall_cons kv
                  (match kv as kv0 return P (snd kv0) with
                   | (k, w) => value_nested_ind w
                   end)
                  (all fs')
            end) fields)
  end.
End value_induction.

(** A Python [dict]: fields in insertion order. *)
Definition dict := list (str * value).

Definition dataset := list dict.

(** [d[key] = v]: an existing key keeps its position and takes the new
    value, a new key goes to the end. *)
Fixpoint dict_set (d : dict) (key : str) (v : value) : dict :=
  match d with
  | [] => [(key, v)]
  | (k, w) :: d' =>
      if str_eqb k key then (k, v) :: d' else (k, w) :: dict_set d' key v
  end.

Definition is_dict (v : value) : bool :=
  match v with
  | VDict _ => true
  | _ => false
  end.

(** ** The encoder *)

Definition SEPARATOR : str :=
  py (String "010" (String "010" ("--------" ++ String "010" (String "010" "")))).

Definition NL : str := py (String "010" "").

(** ["  " * indent] *)
Fixpoint spaces (indent : nat) : str :=
  match indent with
  | O => []
  | S n => py "  " ++ spaces n
  end.

(** [_format_value(value, indent)] *)
Fixpoint _format_value (v : value) (indent : nat) : str :=
  match v with
  | VList items => py "[" ++ join (py ", ") items ++ py "]"
  | VDict fields =>
      join NL
        ((fix lines_of (fs : list (str * value)) : list str :=
            match fs with
            | [] => []
            | (k, w) :: fs' =>
                (if is_dict w
                 then [spaces indent ++ py "  " ++ k ++ py ":";
                       _format_value w (S indent)]
                 else [spaces indent ++ py "  " ++ k ++ py ": "
                       ++ _format_value w (S indent)])
                ++ lines_of fs'
            end) fields)
  | VBool b => lower (py (if b then "True" else "False"))
  | VInt z => str_int z
  | VStr s => s
  end.

(** The lines one field of a record contributes. *)
Definition field_lines (kv : str * value) : list str :=
  let (key, v) := kv in
  if is_dict v
  then [key ++ py ":"; _format_value v 0]
  else [key ++ py ": " ++ _format_value v 0].

(** The body of the loop over [record.items()]. *)
Definition record_lines (record : dict) : list str :=
  flat_map field_lines record.

Definition record_block (record : dict) : str :=
  join NL (record_lines record).

(** [dict_to_toon(data)] *)
Definition dict_to_toon (data : dataset) : str :=
  join SEPARATOR (map record_block data).

(** ** The decoder *)

(** [value[1:-1]] *)
Definition interior (token : str) : str := removelast (tl token).

Definition nonempty (s : str) : bool :=
  match s with
  | [] => false
  | _ => true
  end.

(** [_parse_value(value)] *)
Definition _parse_value (token : str) : outcome value :=
  let token := strip token in
  if startswith token (py "[") && endswith token (py "]") then
    let items := split (py ", ") (interior token) in
    Return (VList (map strip (filter (fun item => nonempty (strip item)) items)))
  else if str_eqb (lower token) (py "true")
          || str_eqb (lower token) (py "false") then
    Return (VBool (str_eqb (lower token) (py "true")))
  else if isdigit token then
    z <- py_int token ;; Return (VInt z)
  else
    Return (VStr token).

(** The reference indent [_parse_lines] captures on entry. *)
Definition entry_indent (lines : list str) (start_idx : nat) : nat :=
  match nth_error lines start_idx with
  | Some line => leading line
  | None => 0
  end.

(** The [while] loop of [_parse_lines]; a nested call is the same loop
    started at [i + 1] with a fresh mapping and its own reference
    indent.  Every iteration and every call takes one unit of fuel. *)
Fixpoint parse_loop (fuel : nat) (lines : list str) (current_indent : nat)
    (result : dict) (i : nat) : outcome (dict * nat) :=
  match fuel with
  | O => NoFuel
  | S fuel' =>
      match nth_error lines i with
      | None => Return (result, i)
      | Some line =>
          if is_blank line then
            parse_loop fuel' lines current_indent result (i + 1)
          else
            let indent := leading line in
            if indent <? current_indent then Return (result, i)
            else if current_indent <? indent then
              parse_loop fuel' lines current_indent result (i + 1)
            else
              let stripped := strip line in
              if contains (py ": ") stripped then
                let (key, raw) := split_once (py ": ") stripped in
                v <- _parse_value raw ;;
                parse_loop fuel' lines current_indent
                  (dict_set result key v) (i + 1)
              else if endswith stripped (py ":") then
                let key := removelast stripped in
                r <- parse_loop fuel' lines (entry_indent lines (i + 1))
                       [] (i + 1) ;;
                parse_loop fuel' lines current_indent
                  (dict_set result key (VDict (fst r))) (snd r)
              else
                parse_loop fuel' lines current_indent result (i + 1)
      end
  end.

(** [_parse_lines(lines, start_idx)] *)
Definition _parse_lines (fuel : nat) (lines : list str) (start_idx : nat)
  : outcome (dict * nat) :=
  parse_loop fuel lines (entry_indent lines start_idx) [] start_idx.

(** Fuel that always suffices for a call at [start_idx]. *)
Definition fuel_for (lines : list str) (start_idx : nat) : nat :=
  S (length lines - start_idx).

(** The body of the loop over [record_strs]: [records] is the list built
    so far. *)
Definition decode_step (records : dataset) (record_str : str)
  : outcome dataset :=
  let lines := split NL (strip record_str) in
  match lines with
  | [] => Return records
  | _ :: _ =>
      r <- _parse_lines (fuel_for lines 0) lines 0 ;;
      match fst r with
      | [] => Return records
      | _ :: _ => Return (records ++ [fst r])
      end
  end.

Fixpoint decode_loop (record_strs : list str) (records : dataset)
  : outcome dataset :=
  match record_strs with
  | [] => Return records
  | record_str :: rest =>
      records' <- decode_step records record_str ;;
      decode_loop rest records'
  end.

(** [toon_to_dict(toon_str)] *)
Definition toon_to_dict (toon_str : str) : outcome dataset :=
  decode_loop (split SEPARATOR (strip toon_str)) [].

(** ** Sample data *)

Definition jenil_nested : dict :=
  [ (py "name", VStr (py "Jenil"));
    (py "address", VDict [ (py "city", VStr (py "X"));
                           (py "zip", VStr (py "12345")) ]) ].

Definition skills_record : dict :=
  [ (py "skills", VList [py "C#"; py ".NET"; py "Angular"]) ].

Definition superscript_two : str := [ascii_of_nat 178].

(** Two records of the repository's sample data sets. *)
Definition sample_small : dataset :=
  [ [ (py "name", VStr (py "Jenil"));
      (py "role", VStr (py "Developer"));
      (py "skills", VList [py "C#"; py ".NET"; py "Angular"]);
      (py "active", VBool true);
      (py "experience", VInt 4) ];
    [ (py "name", VStr (py "Marcus"));
      (py "active", VBool false);
      (py "experience", VInt 10) ] ].

(** A record with Objects nested two levels deep. *)
Definition nested_sample : dict :=
  [ (py "name", VStr (py "Jenil"));
    (py "address", VDict [ (py "city", VStr (py "X"));
                           (py "geo", VDict [ (py "lat", VInt 12);
                                              (py "ok", VBool true) ]);
                           (py "zip", VInt 12345) ]);
    (py "tags", VList [py "a"; py "b"]) ].

(** A text with a line indented deeper than its block, a line of no
    recognised shape, and a value of one superscript digit. *)
Definition stray_lines_text : str :=
  join NL [py "name: A"; py "      stray"; py "shapeless";
           py "sq: " ++ superscript_two].

(** The same text with a decimal digit as the last value. *)
Definition stray_lines_decimal : str :=
  join NL [py "name: A"; py "      stray"; py "shapeless"; py "sq: 2"].

(** A record with an empty Object followed by a further field. *)
Definition empty_object_then_field : dict :=
  [ (py "a", VDict []); (py "b", VStr (py "x")) ].

(** A key line, a line of three spaces, and a field at the indent of
    the key. *)
Definition key_space_field : list str := [py "a:"; py "   "; py "b: x"].

(** A record whose Object under k holds an empty Object followed by a
    further field. *)
Definition nested_empty_then_field : dict :=
  [ (py "k", VDict [ (py "a", VDict []); (py "b", VStr (py "x")) ]) ].

(** A one-record dataset whose string value holds the separator. *)
Definition separator_in_value : dataset :=
  [ [ (py "a", VStr (py "x" ++ SEPARATOR ++ py "y")) ] ].

(** ** Enumerations: constants.py and formats/json_strategies.py *)

(** [class DataFormat(str, Enum)], members in definition order. *)
Inductive DataFormat : Type := JSON | CSV | TOON.

Definition DataFormat_value (f : DataFormat) : str :=
  match f with
  | JSON => py "json"
  | CSV => py "csv"
  | TOON => py "toon"
  end.

Definition DataFormat_members : list DataFormat := [JSON; CSV; TOON].

(** [DataFormat.all()] *)
Definition DataFormat_all : list str := map DataFormat_value DataFormat_members.

(** The loop of [from_string]: the first member whose value equals the
    lower-cased argument, [ValueError] when there is none. *)
Fixpoint first_with_value {E : Type} (value_of : E -> str) (members : list E)
    (value_lower : str) : outcome E :=
  match members with
  | [] => Raise ValueError
  | m :: rest =>
      if str_eqb (value_of m) value_lower then Return m
      else first_with_value value_of rest value_lower
  end.

(** [DataFormat.from_string(value)] *)
Definition DataFormat_from_string (value : str) : outcome DataFormat :=
  first_with_value DataFormat_value DataFormat_members (lower value).

(** [class JSONStrategy(str, Enum)], members in definition order. *)
Inductive JSONStrategy : Type := PRETTY | COMPACT | STRINGIFIED | MINIMAL.

Definition JSONStrategy_value (s : JSONStrategy) : str :=
  match s with
  | PRETTY => py "pretty"
  | COMPACT => py "compact"
  | STRINGIFIED => py "stringified"
  | MINIMAL => py "minimal"
  end.

Definition JSONStrategy_members : list JSONStrategy :=
  [PRETTY; COMPACT; STRINGIFIED; MINIMAL].

(** [JSONStrategy.all()] *)
Definition JSONStrategy_all : list str :=
  map JSONStrategy_value JSONStrategy_members.

(** [JSONStrategy.from_string(value)] *)
Definition JSONStrategy_from_string (value : str) : outcome JSONStrategy :=
  first_with_value JSONStrategy_value JSONStrategy_members (lower value).

(** ** The sample data sets of test_data.py *)

Definition employee (name role : str) (skills : list str) (active : bool)
    (experience : Z) : dict :=
  [ (py "name", VStr name);
    (py "role", VStr role);
    (py "skills", VList skills);
    (py "active", VBool active);
    (py "experience", VInt experience) ].

Definition SAMPLE_SMALL : dataset :=
  [ employee (py "Jenil") (py "Developer")
      [py "C#"; py ".NET"; py "Angular"] true 4 ].

Definition SAMPLE_MEDIUM : dataset :=
  [ employee (py "Jenil") (py "Developer")
      [py "C#"; py ".NET"; py "Angular"] true 4;
    employee (py "Sarah") (py "Designer")
      [py "Figma"; py "Sketch"; py "Photoshop"] true 6;
    employee (py "Marcus") (py "Manager")
      [py "Leadership"; py "Agile"; py "Communication"] false 10 ].

Definition ROLES : list str :=
  [py "Developer"; py "Designer"; py "Manager"; py "Analyst"].

(** The record of [SAMPLE_LARGE] for [i]. *)
Definition large_record (i : nat) : dict :=
  employee (py "Employee" ++ str_int (Z.of_nat i))
    (nth (i mod 4) ROLES [])
    (map (fun j => py "Skill" ++ str_int (Z.of_nat j)) (seq 0 (3 + i mod 5)))
    (negb (i mod 3 =? 0))
    (Z.of_nat (i mod 15 + 1)).

Definition SAMPLE_LARGE : dataset := map large_record (seq 0 50).

(** [self.datasets] of [TestDataGenerator]. *)
Definition datasets : list (str * dataset) :=
  [ (py "small", SAMPLE_SMALL);
    (py "medium", SAMPLE_MEDIUM);
    (py "large", SAMPLE_LARGE) ].

(** [get_dataset(size)]: [self.datasets.get(size, SAMPLE_MEDIUM)] *)
Definition get_dataset (size : str) : dataset :=
  match find (fun kv => str_eqb (fst kv) size) datasets with
  | Some kv => snd kv
  | None => SAMPLE_MEDIUM
  end.

(** ** Predicates used in the statements *)

(** All the positions of [s] (counted from [pos]) at which [sep] occurs,
    overlapping occurrences included. *)
Fixpoint occurrences (sep s : str) (pos : nat) : list nat :=
  (if startswith s sep then [pos] else []) ++
  match s with
  | [] => []
  | _ :: s' => occurrences sep s' (S pos)
  end.

(** No occurrence of [sep] in [a ++ sep ++ rest] starts inside [a]: a
    split then cuts exactly at the end of [a]. *)
Definition piece_ok (sep a : str) : Prop :=
  forall rest p, p < length a ->
    startswith (skipn p (a ++ sep ++ rest)) sep = false.

Definition newline : ascii := "010"%char.

(** ["\n" in s] *)
Definition has_newline (s : str) : bool := existsb (ascii_eqb newline) s.

(** The first test of [_parse_value]: the token is wrapped in brackets. *)
Definition wrapped (t : str) : bool :=
  startswith t (py "[") && endswith t (py "]").

(** The second test of [_parse_value]: the token is a casing of "true"
    or of "false". *)
Definition is_bool_token (t : str) : bool :=
  str_eqb (lower t) (py "true") || str_eqb (lower t) (py "false").

(** A text that survives a trip through one line: not empty, nothing
    for [strip] to remove, no line break. *)
Definition plain_text (s : str) : bool :=
  nonempty s && str_eqb (strip s) s && negb (has_newline s).

(** A string value that decodes to itself. *)
Definition string_ok (s : str) : bool :=
  plain_text s && negb (wrapped s) && negb (is_bool_token s)
  && negb (isdigit s).

(** A list item that decodes to itself. *)
Definition item_ok (s : str) : bool :=
  plain_text s && negb (contains (py ", ") s).

(** A key that decodes to itself. *)
Definition key_ok (k : str) : bool :=
  str_eqb (lstrip k) k && negb (has_newline k)
  && negb (contains (py ": ") k).

(** An Integer that decodes to itself: not negative, and of no more
    digits than [str] writes and [int] reads. *)
Definition int_ok (z : Z) : bool :=
  (0 <=? z)%Z && (digits z <=? default_max_str_digits).

(** A scalar or list value that decodes to itself. *)
Definition scalar_ok (v : value) : bool :=
  match v with
  | VStr s => string_ok s
  | VInt z => int_ok z
  | VBool _ => true
  | VList items => forallb item_ok items
  | VDict _ => false
  end.

Definition field_ok (kv : str * value) : bool :=
  key_ok (fst kv) && scalar_ok (snd kv).

(** The single line a scalar or list field is rendered to. *)
Definition field_line (kv : str * value) : str :=
  fst kv ++ py ": " ++ _format_value (snd kv) 0.

(** [keys] holds no key twice. *)
Fixpoint distinct (keys : list str) : bool :=
  match keys with
  | [] => true
  | k :: keys' => negb (existsb (str_eqb k) keys') && distinct keys'
  end.

(** A record the round trip preserves: at least one field, distinct
    keys, every field well formed. *)
Definition record_ok (record : dict) : bool :=
  match record with
  | [] => false
  | _ :: _ => distinct (map fst record) && forallb field_ok record
  end.

Definition record_wf (record : dict) : Prop :=
  record <> [] /\ NoDup (map fst record) /\ forallb field_ok record = true.

(** The hypothesis of the round trip as the specification words it:
    only String, Integer, Boolean and List fields, no string made of
    digits only, no [": "] inside a value. *)
Definition claimed_scalar (v : value) : bool :=
  match v with
  | VStr s => negb (isdigit s) && negb (contains (py ": ") s)
  | VInt _ => true
  | VBool _ => true
  | VList items => forallb (fun item => negb (contains (py ": ") item)) items
  | VDict _ => false
  end.

Definition claimed_dataset (data : dataset) : bool :=
  forallb (forallb (fun kv : str * value => claimed_scalar (snd kv))) data.

(** Where the loop of [_parse_lines] may stop: at the end of the input,
    or in front of a non-blank line indented less than the reference
    indent. *)
Definition stops_at (lines : list str) (cur j : nat) : Prop :=
  nth_error lines j = None \/
  exists line, nth_error lines j = Some line /\ is_blank line = false
               /\ leading line < cur.

(** What a run of the loop from index [i] delivers. *)
Definition loop_post (lines : list str) (cur i : nat)
    (out : outcome (dict * nat)) : Prop :=
  match out with
  | NoFuel => False
  | Raise _ => True
  | Return (_, j) => i <= j /\ stops_at lines cur j
  end.

(** The parse of one chunk, as the decoder's loop runs it. *)
Definition parse_chunk (record_str : str) : outcome dict :=
  let lines := split NL (strip record_str) in
  r <- _parse_lines (fuel_for lines 0) lines 0 ;; Return (fst r).

(** [[f(x) for x in xs]] for an [f] that may raise. *)
Fixpoint map_outcome {A B} (f : A -> outcome B) (xs : list A)
  : outcome (list B) :=
  match xs with
  | [] => Return []
  | x :: xs' => y <- f x ;; ys <- map_outcome f xs' ;; Return (y :: ys)
  end.

Definition nonempty_dict (d : dict) : bool :=
  match d with
  | [] => false
  | _ :: _ => true
  end.

(** Every way of writing a word in upper and lower case. *)
Definition upper_char (c : ascii) : ascii := ascii_of_nat (code c - 32).

Fixpoint casings (word : str) : list str :=
  match word with
  | [] => [[]]
  | c :: word' =>
      flat_map (fun t => [c :: t; upper_char c :: t]) (casings word')
  end.

(** A rendered block with no blank line: no two line breaks in a row and
    none at either end. *)
Definition no_blank_line (block : str) : Prop :=
  contains (NL ++ NL) block = false
  /\ startswith block NL = false
  /\ endswith block NL = false.

(** A value whose keys, strings and list items hold no line break and
    whose Objects are not empty. *)
Fixpoint line_free (v : value) : bool :=
  match v with
  | VStr s => negb (has_newline s)
  | VInt _ => true
  | VBool _ => true
  | VList items => forallb (fun item => negb (has_newline item)) items
  | VDict fields =>
      nonempty_dict fields &&
      (fix all (fs : list (str * value)) : bool :=
         match fs with
         | [] => true
         | (k, w) :: fs' => negb (has_newline k) && line_free w && all fs'
         end) fields
  end.

Definition line_free_field (kv : str * value) : bool :=
  negb (has_newline (fst kv)) && line_free (snd kv).

(** A record of such values; the record itself may be empty. *)
Definition line_free_record (record : dict) : bool :=
  forallb line_free_field record.

(** The pieces one field of a nested Object contributes to the lines that
    [_format_value] joins. *)
Definition nested_field_lines (indent : nat) (kv : str * value) : list str :=
  let (k, w) := kv in
  if is_dict w
  then [spaces indent ++ py "  " ++ k ++ py ":"; _format_value w (S indent)]
  else [spaces indent ++ py "  " ++ k ++ py ": " ++ _format_value w (S indent)].

(** A non-empty text without blank line. *)
Definition solid (block : str) : Prop := block <> [] /\ no_blank_line block.

(** A text without the digit characters that [int()] refuses (the
    superscripts U+00B2, U+00B3 and U+00B9). *)
Definition no_superscript (s : str) : bool :=
  forallb (fun c => implb (isdigit_char c) (isdecimal_char c)) s.

(** No Object of the value holds a key twice. *)
Fixpoint distinct_keys (v : value) : bool :=
  match v with
  | VDict fields =>
      distinct (map fst fields) &&
      (fix all (fs : list (str * value)) : bool :=
         match fs with
         | [] => true
         | (_, w) :: fs' => distinct_keys w && all fs'
         end) fields
  | _ => true
  end.

(** The lines the encoder lays out for the fields of an Object that sit
    [depth] two-space units deep: one line for a scalar or list field, a
    key line followed by the lines of its fields for an Object. *)
Fixpoint value_lines (v : value) (depth : nat) : list str :=
  match v with
  | VDict fields =>
      (fix go (fs : list (str * value)) : list str :=
         match fs with
         | [] => []
         | (k, w) :: fs' =>
             (if is_dict w
              then (spaces depth ++ k ++ py ":") :: value_lines w (S depth)
              else [spaces depth ++ k ++ py ": " ++ _format_value w 0])
             ++ go fs'
         end) fields
  | _ => []
  end.

Definition block_lines (fields : dict) (depth : nat) : list str :=
  value_lines (VDict fields) depth.

(** A value the round trip preserves: a well-formed scalar or list, or
    an Object with at least one field, distinct well-formed keys and
    such values. *)
Fixpoint value_ok (v : value) : bool :=
  match v with
  | VDict fields =>
      nonempty_dict fields && distinct (map fst fields) &&
      (fix all (fs : list (str * value)) : bool :=
         match fs with
         | [] => true
         | (k, w) :: fs' => key_ok k && value_ok w && all fs'
         end) fields
  | _ => scalar_ok v
  end.

Definition nested_field_ok (kv : str * value) : bool :=
  key_ok (fst kv) && value_ok (snd kv).

Definition nested_record_ok (record : dict) : bool := value_ok (VDict record).

(** An outcome of the loop with its index moved by [n]. *)
Definition shift (n : nat) (out : outcome (dict * nat)) : outcome (dict * nat) :=
  match out with
  | Return (m, j) => Return (m, n + j)
  | Raise e => Raise e
  | NoFuel => NoFuel
  end.

(** The lines after a block: none, or a first line that is not blank and
    indented less than the block. *)
Definition stops_block (cur : nat) (post : list str) : Prop :=
  match post with
  | [] => True
  | l :: _ => is_blank l = false /\ leading l < cur
  end.

(** The loop reads the lines of well-formed fields back: started on
    them with the mapping [acc], at their indent, it returns [acc] with
    the fields added and the number of lines read. *)
Definition fields_parse_back (fs : dict) : Prop :=
  forall (depth : nat) (acc : dict) (post : list str) (fuel : nat),
    forallb nested_field_ok fs = true ->
    NoDup (map fst (acc ++ fs)) ->
    stops_block (2 * depth) post ->
    length (block_lines fs depth) < fuel ->
    parse_loop fuel (block_lines fs depth ++ post) (2 * depth) acc 0
    = Return (acc ++ fs, length (block_lines fs depth)).

Definition parses_back (v : value) : Prop :=
  forall fs, v = VDict fs -> distinct (map fst fs) = true ->
             fields_parse_back fs.

(** The pieces the encoder joins for one field at [depth]: one line, or
    a key line and the rendered Object. *)
Definition depth_field_lines (depth : nat) (kv : str * value) : list str :=
  let (k, w) := kv in
  if is_dict w
  then [spaces depth ++ k ++ py ":"; _format_value w depth]
  else [spaces depth ++ k ++ py ": " ++ _format_value w depth].

(** A line the decoder can take as it is. *)
Definition good_line (l : str) : Prop :=
  l <> [] /\ ~ In newline l /\ rstrip l = l.

Definition lines_good (v : value) : Prop :=
  forall fs, v = VDict fs -> forallb nested_field_ok fs = true ->
             forall depth, Forall good_line (block_lines fs depth).

Definition renders_lines (v : value) : Prop :=
  forall fs, v = VDict fs -> forallb nested_field_ok fs = true ->
             forall indent,
               _format_value v indent = join NL (block_lines fs (S indent)).

(** A text of whitespace only. *)
Definition all_space (s : str) : bool := forallb isspace s.

(** The first line of [lines] that is not blank. *)
Fixpoint first_non_blank (lines : list str) : option str :=
  match lines with
  | [] => None
  | l :: lines' => if is_blank l then first_non_blank lines' else Some l
  end.

(** The non-blank line that comes first after line [i]: the line the
    specification looks at after a key-only line. *)
Definition next_non_blank (lines : list str) (i : nat) : option str :=
  first_non_blank (skipn (i + 1) lines).

(** How deep Objects are nested in a value: 0 for a scalar or a list,
    one more than its deepest field for an Object.  [_format_value] and
    [_parse_lines] call themselves once per level. *)
Fixpoint nesting (v : value) : nat :=
  match v with
  | VDict fields =>
      S ((fix deepest (fs : list (str * value)) : nat :=
            match fs with
            | [] => 0
            | (_, w) :: fs' => Nat.max (nesting w) (deepest fs')
            end) fields)
  | _ => 0
  end.

(** A depth of recursion well within what the interpreter allows: half
    its default limit of 1000 frames. *)
Definition nesting_bound : nat := 500.

(** A record whose Objects, the record included, are nested no deeper
    than [nesting_bound]. *)
Definition shallow (record : dict) : bool :=
  nesting (VDict record) <=? nesting_bound.

(** A text short enough for the interpreter's default limits: none of
    its numerals exceeds [default_max_str_digits], and its key-only
    lines, of two characters or more each with their line break, open
    no more than [nesting_bound] nested calls. *)
Definition short_text (text : str) : bool :=
  length text <=? 2 * nesting_bound.

(** ** Proof automation *)

(** Case analysis over the 256 characters. *)
Ltac each_char c :=
  destruct c as [[|] [|] [|] [|] [|] [|] [|] [|]]; vm_compute;
  try reflexivity; try discriminate; try congruence.

(** One digit of [Pos.of_uint_acc] against one step of [decimal_value]. *)
Ltac decimal_digit_step IH :=
  match goal with
  | |- fold_left _ _ (decimal_step ?a ?c) = Zpos (Pos.of_uint_acc _ ?p) =>
      replace (decimal_step a c) with (Zpos p);
      [ apply IH
      | unfold decimal_step;
        let v := eval vm_compute in (digit_value c) in
        change (digit_value c) with v; lia ]
  end.

(** * Properties *)

(** ** Characters and string equality *)

Lemma ascii_eqb_true (a b : ascii) : ascii_eqb a b = true <-> a = b.
Proof. apply Ascii.eqb_eq. Qed.

Lemma ascii_eqb_refl (a : ascii) : ascii_eqb a a = true.
Proof. apply Ascii.eqb_refl. Qed.

Lemma ascii_eqb_false (a b : ascii) : ascii_eqb a b = false <-> a <> b.
Proof. apply Ascii.eqb_neq. Qed.

Lemma str_eqb_true (a b : str) : str_eqb a b = true <-> a = b.
Proof.
  revert b; induction a as [|x a IH]; intros [|y b]; simpl;
    try (split; [discriminate | discriminate]); try tauto.
  rewrite andb_true_iff, ascii_eqb_true, IH.
  split; [intros [-> ->]; reflexivity | intros H; inversion H; auto].
Qed.

Lemma str_eqb_refl (a : str) : str_eqb a a = true.
Proof. apply str_eqb_true; reflexivity. Qed.

Lemma str_eqb_false (a b : str) : str_eqb a b = false <-> a <> b.
Proof.
  destruct (str_eqb a b) eqn:E.
  - apply str_eqb_true in E. split; [discriminate | congruence].
  - split; [|reflexivity]. intros _ H. apply str_eqb_true in H. congruence.
Qed.

(** ** Prefixes and occurrences *)

Lemma startswith_app (p r : str) : startswith (p ++ r) p = true.
Proof.
  induction p as [|x p IH]; simpl; [destruct r; reflexivity|].
  now rewrite ascii_eqb_refl.
Qed.

Lemma startswith_true (s p : str) :
  startswith s p = true <-> exists r, s = p ++ r.
Proof.
  split.
  - revert s; induction p as [|x p IH]; intros s H.
    + exists s; reflexivity.
    + destruct s as [|y s]; simpl in H; [discriminate|].
      apply andb_true_iff in H as [Hx Hp]. apply ascii_eqb_true in Hx.
      destruct (IH _ Hp) as [r ->]. exists r. now subst.
  - intros [r ->]. apply startswith_app.
Qed.

Lemma startswith_nil (s : str) : startswith s [] = true.
Proof. destruct s; reflexivity. Qed.

(** A prefix of the pattern is a prefix of the text as well. *)
Lemma startswith_prefix (s p q : str) :
  startswith s (p ++ q) = true -> startswith s p = true.
Proof.
  intros H. apply startswith_true in H as [r ->].
  rewrite <- app_assoc. apply startswith_app.
Qed.

Lemma contains_app_r (sub a b : str) :
  contains sub b = true -> contains sub (a ++ b) = true.
Proof.
  intros H. induction a as [|x a IH]; simpl; [exact H|].
  rewrite IH. apply orb_true_r.
Qed.

Lemma contains_start (sub s : str) :
  startswith s sub = true -> contains sub s = true.
Proof. destruct s; simpl; intros ->; reflexivity. Qed.

Lemma contains_here (sub r : str) : contains sub (sub ++ r) = true.
Proof. apply contains_start, startswith_app. Qed.

Lemma contains_cons (sub : str) (c : ascii) (s : str) :
  contains sub (c :: s) = startswith (c :: s) sub || contains sub s.
Proof. reflexivity. Qed.

Lemma contains_false_cons (sub : str) (c : ascii) (s : str) :
  contains sub (c :: s) = false ->
  startswith (c :: s) sub = false /\ contains sub s = false.
Proof. simpl. intros H. apply orb_false_iff in H. exact H. Qed.

Lemma contains_false_app_l (sub a b : str) :
  contains sub (a ++ b) = false -> contains sub b = false.
Proof.
  intros H. destruct (contains sub b) eqn:E; [|reflexivity].
  rewrite (contains_app_r sub a b E) in H. discriminate.
Qed.

(** ** Stripping *)

Lemma lstrip_length (s : str) : length (lstrip s) <= length s.
Proof.
  induction s as [|c s IH]; simpl; [lia|].
  destruct (isspace c); simpl; lia.
Qed.

Lemma lstrip_same_length (s : str) :
  length (lstrip s) = length s -> lstrip s = s.
Proof.
  destruct s as [|c s]; simpl; [reflexivity|].
  destruct (isspace c); [|reflexivity].
  intros H. pose proof (lstrip_length s). lia.
Qed.

Lemma rstrip_length (s : str) : length (rstrip s) <= length s.
Proof.
  unfold rstrip. rewrite length_rev.
  pose proof (lstrip_length (rev s)). rewrite length_rev in H. exact H.
Qed.

Lemma rstrip_same_length (s : str) :
  length (rstrip s) = length s -> rstrip s = s.
Proof.
  unfold rstrip. rewrite length_rev. intros H.
  rewrite lstrip_same_length by (rewrite length_rev; exact H).
  apply rev_involutive.
Qed.

(** A string is left unchanged by [strip] exactly when neither end
    strips anything. *)
Lemma strip_fixed (s : str) :
  strip s = s <-> lstrip s = s /\ rstrip s = s.
Proof.
  unfold strip. split.
  - intros H.
    assert (Hl : lstrip s = s).
    { apply lstrip_same_length.
      pose proof (lstrip_length s). pose proof (rstrip_length (lstrip s)).
      rewrite H in H1. lia. }
    split; [exact Hl|]. now rewrite Hl in H.
  - intros [Hl Hr]. now rewrite Hl.
Qed.

Lemma lstrip_head (c : ascii) (s : str) :
  isspace c = false -> lstrip (c :: s) = c :: s.
Proof. simpl. now intros ->. Qed.

Lemma lstrip_fixed_head (c : ascii) (s : str) :
  lstrip (c :: s) = c :: s -> isspace c = false.
Proof.
  simpl. destruct (isspace c); [|reflexivity].
  intros H. pose proof (lstrip_length s). rewrite H in H0. simpl in H0. lia.
Qed.

Lemma lstrip_fixed_app (a b : str) :
  lstrip a = a -> lstrip b = b -> lstrip (a ++ b) = a ++ b.
Proof.
  destruct a as [|c a]; simpl app; [auto|].
  intros Ha _. apply lstrip_fixed_head in Ha. now apply lstrip_head.
Qed.

Lemma rstrip_fixed_app (a b : str) :
  rstrip a = a -> rstrip b = b -> rstrip (a ++ b) = a ++ b.
Proof.
  unfold rstrip. intros Ha Hb.
  rewrite rev_app_distr, lstrip_fixed_app, <- rev_app_distr, rev_involutive.
  - reflexivity.
  - apply (f_equal (@rev ascii)) in Hb. now rewrite rev_involutive in Hb.
  - apply (f_equal (@rev ascii)) in Ha. now rewrite rev_involutive in Ha.
Qed.

Lemma strip_fixed_app (a b : str) :
  strip a = a -> strip b = b -> strip (a ++ b) = a ++ b.
Proof.
  rewrite !strip_fixed. intros [Hla Hra] [Hlb Hrb].
  split; [now apply lstrip_fixed_app | now apply rstrip_fixed_app].
Qed.

(** When the right part is not empty only its own right end matters. *)
Lemma rstrip_app_nonempty (a b : str) :
  b <> [] -> rstrip b = b -> rstrip (a ++ b) = a ++ b.
Proof.
  unfold rstrip. intros Hne Hb.
  assert (Hrb : lstrip (rev b) = rev b).
  { apply (f_equal (@rev ascii)) in Hb. now rewrite rev_involutive in Hb. }
  rewrite rev_app_distr.
  destruct (rev b) as [|c rb] eqn:E.
  - apply (f_equal (@rev ascii)) in E. rewrite rev_involutive in E.
    simpl in E. contradiction.
  - simpl app. apply lstrip_fixed_head in Hrb.
    rewrite lstrip_head by exact Hrb.
    change (c :: rb ++ rev a) with ((c :: rb) ++ rev a).
    now rewrite <- E, <- rev_app_distr, rev_involutive.
Qed.

Lemma lstrip_app_nonempty (a b : str) :
  a <> [] -> lstrip a = a -> lstrip (a ++ b) = a ++ b.
Proof.
  destruct a as [|c a]; [contradiction|]. intros _ Ha.
  apply lstrip_fixed_head in Ha. simpl app. now apply lstrip_head.
Qed.

Lemma leading_fixed (s : str) : lstrip s = s -> leading s = 0.
Proof. unfold leading. intros ->. lia. Qed.

Lemma is_blank_fixed (s : str) : strip s = s -> s <> [] -> is_blank s = false.
Proof. unfold is_blank. intros ->. destruct s; [contradiction|reflexivity]. Qed.

(** ** Splitting and joining *)

Lemma split_from_unfold (sep : str) (c : ascii) (s : str) :
  split_from sep (c :: s) 0 =
  if startswith (c :: s) sep
  then [] :: split_from sep s (length sep - 1)
  else cons_head c (split_from sep s 0).
Proof. reflexivity. Qed.

Lemma split_from_skip (sep x rest : str) :
  split_from sep (x ++ rest) (length x) = split_from sep rest 0.
Proof. induction x as [|c x IH]; simpl; [reflexivity | exact IH]. Qed.

Lemma split_sep (sep rest : str) :
  sep <> [] -> split sep (sep ++ rest) = [] :: split sep rest.
Proof.
  destruct sep as [|c sep']; [contradiction|]. intros _.
  unfold split. change ((c :: sep') ++ rest) with (c :: (sep' ++ rest)).
  rewrite split_from_unfold.
  change (c :: sep' ++ rest) with ((c :: sep') ++ rest).
  rewrite startswith_app.
  replace (length (c :: sep') - 1) with (length sep') by (simpl; lia).
  now rewrite split_from_skip.
Qed.

Lemma piece_ok_head (sep : str) (c : ascii) (a rest : str) :
  piece_ok sep (c :: a) -> startswith (c :: a ++ sep ++ rest) sep = false.
Proof. intros H. apply (H rest 0). simpl. lia. Qed.

Lemma piece_ok_tail (sep : str) (c : ascii) (a : str) :
  piece_ok sep (c :: a) -> piece_ok sep a.
Proof. intros H rest p Hp. apply (H rest (S p)). simpl. lia. Qed.

Lemma split_piece (sep a rest : str) :
  sep <> [] -> piece_ok sep a ->
  split sep (a ++ sep ++ rest) = a :: split sep rest.
Proof.
  intros Hsep. induction a as [|c a IH]; intros Hok.
  - change ([] ++ sep ++ rest) with (sep ++ rest). now apply split_sep.
  - unfold split in *. simpl app. rewrite split_from_unfold.
    rewrite (piece_ok_head _ _ _ _ Hok).
    rewrite IH by (eapply piece_ok_tail; eauto). reflexivity.
Qed.

Lemma split_none (sep a : str) :
  contains sep a = false -> split sep a = [a].
Proof.
  unfold split. induction a as [|c a IH]; intros H; [reflexivity|].
  apply contains_false_cons in H as [H1 H2].
  rewrite split_from_unfold, H1, IH by exact H2. reflexivity.
Qed.

Lemma startswith_app_l (s t p : str) :
  startswith s p = true -> startswith (s ++ t) p = true.
Proof.
  intros H. apply startswith_true in H as [r ->].
  rewrite <- app_assoc. apply startswith_app.
Qed.

Lemma piece_ok_contains (sep a : str) :
  sep <> [] -> piece_ok sep a -> contains sep a = false.
Proof.
  intros Hsep. induction a as [|c a IH]; intros Hok.
  - destruct sep; [contradiction | reflexivity].
  - rewrite contains_cons, IH by (eapply piece_ok_tail; eauto).
    rewrite orb_false_r.
    destruct (startswith (c :: a) sep) eqn:E; [|reflexivity].
    apply (startswith_app_l _ (sep ++ [])) in E.
    pose proof (piece_ok_head _ _ _ [] Hok) as H.
    rewrite <- app_comm_cons in E. rewrite E in H. discriminate.
Qed.

(** Splitting a joined list gives the list back when no piece lets the
    separator start inside it. *)
Lemma split_join (sep : str) (parts : list str) :
  sep <> [] -> parts <> [] -> Forall (piece_ok sep) parts ->
  split sep (join sep parts) = parts.
Proof.
  intros Hsep. induction parts as [|a parts IH]; [contradiction|].
  intros _ Hall. inversion Hall as [|? ? Ha Hrest]; subst.
  destruct parts as [|b parts].
  - simpl. apply split_none. now apply piece_ok_contains.
  - change (join sep (a :: b :: parts)) with (a ++ sep ++ join sep (b :: parts)).
    rewrite split_piece by assumption.
    rewrite IH by (assumption || discriminate). reflexivity.
Qed.

(** A separator of one character: the piece must not hold it. *)
Lemma piece_ok_char (c : ascii) (a : str) : ~ In c a -> piece_ok [c] a.
Proof.
  induction a as [|x a IH]; intros Hin rest p Hp; simpl in Hp; [lia|].
  destruct p as [|p].
  - simpl. destruct (ascii_eqb c x) eqn:E; [|reflexivity].
    apply ascii_eqb_true in E. subst. exfalso. apply Hin. now left.
  - simpl skipn. apply IH; [|lia]. intros H. apply Hin. now right.
Qed.

(** A separator that begins with [c1], [c2]: the piece must not hold
    [c1 c2], nor end in [c1] when [c1 = c2]. *)
Lemma piece_ok_two (c1 c2 : ascii) (tail a : str) :
  contains [c1; c2] a = false ->
  (c1 = c2 -> forall b, a <> b ++ [c1]) ->
  piece_ok (c1 :: c2 :: tail) a.
Proof.
  induction a as [|x a IH]; intros Hc Hend rest p Hp; simpl in Hp; [lia|].
  apply contains_false_cons in Hc as [Hc1 Hc2].
  destruct p as [|p].
  - simpl skipn.
    match goal with |- ?t = false => destruct t eqn:E end; [|reflexivity].
    apply (startswith_prefix _ [c1; c2] tail) in E.
    destruct a as [|y a].
    + simpl in E. apply andb_true_iff in E as [E1 E2].
      apply andb_true_iff in E2 as [E2 _].
      apply ascii_eqb_true in E1, E2. subst.
      exfalso. apply (Hend eq_refl []). reflexivity.
    + simpl in E, Hc1. rewrite startswith_nil in E.
      destruct a; simpl in Hc1; rewrite E in Hc1; discriminate.
  - simpl skipn. apply IH; [exact Hc2 | | lia].
    intros Heq b Hb. apply (Hend Heq (x :: b)). simpl. now rewrite Hb.
Qed.

Lemma endswith_last (a b : str) (c : ascii) :
  endswith a [c] = false -> a <> b ++ [c].
Proof.
  unfold endswith. intros H ->. rewrite rev_app_distr in H. simpl in H.
  rewrite ascii_eqb_refl in H. destruct (rev b); discriminate.
Qed.

Lemma occurrences_cons (sep : str) (c : ascii) (s : str) (pos : nat) :
  occurrences sep (c :: s) pos =
  (if startswith (c :: s) sep then [pos] else []) ++ occurrences sep s (S pos).
Proof. reflexivity. Qed.

Lemma occurrences_none (sep s : str) (pos : nat) :
  contains sep s = false -> occurrences sep s pos = [].
Proof.
  revert pos; induction s as [|c s IH]; intros pos H.
  - simpl in *. rewrite orb_false_r in H. now rewrite H.
  - apply contains_false_cons in H as [H1 H2].
    rewrite occurrences_cons, H1, IH by exact H2. reflexivity.
Qed.

Lemma occurrences_piece (sep a rest : str) (pos : nat) :
  piece_ok sep a ->
  occurrences sep (a ++ sep ++ rest) pos =
  occurrences sep (sep ++ rest) (pos + length a).
Proof.
  revert pos; induction a as [|c a IH]; intros pos Hok.
  - simpl. now rewrite Nat.add_0_r.
  - rewrite <- app_comm_cons, occurrences_cons.
    rewrite (piece_ok_head _ _ _ _ Hok).
    rewrite IH by (eapply piece_ok_tail; eauto).
    simpl length. simpl app. f_equal. lia.
Qed.

Lemma contains_nil (sub : str) : contains sub [] = startswith [] sub.
Proof. unfold contains. apply orb_false_r. Qed.

Lemma startswith_longer_false (s p q : str) :
  startswith s p = false -> startswith s (p ++ q) = false.
Proof.
  intros H. destruct (startswith s (p ++ q)) eqn:E; [|reflexivity].
  apply startswith_prefix in E. congruence.
Qed.

Lemma contains_longer_false (p q s : str) :
  contains p s = false -> contains (p ++ q) s = false.
Proof.
  induction s as [|c s IH]; intros H.
  - rewrite contains_nil in *. now apply startswith_longer_false.
  - apply contains_false_cons in H as [H1 H2].
    rewrite contains_cons, IH, orb_false_r by exact H2.
    now apply startswith_longer_false.
Qed.

(** ** Joining lines *)

Lemma join_cons (sep a : str) (b : str) (parts : list str) :
  join sep (a :: b :: parts) = a ++ sep ++ join sep (b :: parts).
Proof. reflexivity. Qed.

Lemma join_snoc (sep : str) (parts : list str) (z : str) :
  parts <> [] -> join sep (parts ++ [z]) = join sep parts ++ sep ++ z.
Proof.
  induction parts as [|a parts IH]; [contradiction|]. intros _.
  destruct parts as [|b parts]; [reflexivity|].
  change ((a :: b :: parts) ++ [z]) with (a :: b :: (parts ++ [z])).
  rewrite !join_cons.
  change (b :: parts ++ [z]) with ((b :: parts) ++ [z]).
  rewrite IH by discriminate. now rewrite <- !app_assoc.
Qed.

(** ** Character classes *)

Lemma decimal_not_space (c : ascii) :
  isdecimal_char c = true -> isspace c = false.
Proof. each_char c. Qed.

Lemma decimal_is_digit (c : ascii) :
  isdecimal_char c = true -> isdigit_char c = true.
Proof. unfold isdigit_char. now intros ->. Qed.

Lemma decimal_lower (c : ascii) :
  isdecimal_char c = true -> lower_char c = c.
Proof. each_char c. Qed.

Lemma decimal_not_bracket (c : ascii) :
  isdecimal_char c = true -> ascii_eqb "[" c = false.
Proof. each_char c. Qed.

Lemma decimal_not_t (c : ascii) :
  isdecimal_char c = true -> ascii_eqb c "t" = false.
Proof. each_char c. Qed.

Lemma decimal_not_f (c : ascii) :
  isdecimal_char c = true -> ascii_eqb c "f" = false.
Proof. each_char c. Qed.

Lemma lower_t_not_bracket (c : ascii) :
  lower_char c = "t"%char -> ascii_eqb "[" c = false.
Proof. each_char c. Qed.

Lemma lower_f_not_bracket (c : ascii) :
  lower_char c = "f"%char -> ascii_eqb "[" c = false.
Proof. each_char c. Qed.

Lemma lower_t_not_space (c : ascii) :
  lower_char c = "t"%char -> isspace c = false.
Proof. each_char c. Qed.

Lemma lower_f_not_space (c : ascii) :
  lower_char c = "f"%char -> isspace c = false.
Proof. each_char c. Qed.

Lemma lower_e_not_space (c : ascii) :
  lower_char c = "e"%char -> isspace c = false.
Proof. each_char c. Qed.

(** A text without whitespace at either end is left alone by [strip]. *)
Lemma strip_ends (c : ascii) (mid : str) (d : ascii) :
  isspace c = false -> isspace d = false ->
  strip (c :: mid ++ [d]) = c :: mid ++ [d].
Proof.
  intros Hc Hd. apply strip_fixed. split.
  - now apply lstrip_head.
  - change (c :: mid ++ [d]) with ((c :: mid) ++ [d]).
    apply rstrip_app_nonempty; [discriminate|].
    unfold rstrip. simpl. now rewrite Hd.
Qed.

Lemma strip_single (c : ascii) : isspace c = false -> strip [c] = [c].
Proof.
  intros Hc. apply strip_fixed. split.
  - now apply lstrip_head.
  - unfold rstrip. simpl. now rewrite Hc.
Qed.

Lemma strip_no_space (s : str) :
  forallb (fun c => negb (isspace c)) s = true -> strip s = s.
Proof.
  intros H. apply strip_fixed. split.
  - destruct s as [|c s]; [reflexivity|]. simpl in H.
    apply andb_true_iff in H as [H _]. apply negb_true_iff in H.
    now apply lstrip_head.
  - unfold rstrip.
    assert (Hr : forallb (fun c => negb (isspace c)) (rev s) = true).
    { rewrite forallb_forall in *. intros x Hx. apply H.
      now apply in_rev. }
    destruct (rev s) as [|c r] eqn:E.
    + apply (f_equal (@rev ascii)) in E. now rewrite rev_involutive in E.
    + simpl in Hr. apply andb_true_iff in Hr as [Hr _].
      apply negb_true_iff in Hr. rewrite lstrip_head by exact Hr.
      now rewrite <- E, rev_involutive.
Qed.

(** ** Decimal numerals *)

Lemma uint_string_decimal (u : Decimal.uint) :
  forallb isdecimal_char (py (NilEmpty.string_of_uint u)) = true.
Proof. induction u; simpl; auto. Qed.

Lemma uint_string_acc (u : Decimal.uint) (acc : positive) :
  fold_left decimal_step (py (NilEmpty.string_of_uint u)) (Zpos acc)
  = Zpos (Pos.of_uint_acc u acc).
Proof.
  revert acc; induction u; intros acc;
    cbn [py list_ascii_of_string NilEmpty.string_of_uint fold_left
         Pos.of_uint_acc];
    [reflexivity | ..]; decimal_digit_step IHu.
Qed.

Lemma uint_string_value (u : Decimal.uint) :
  decimal_value (py (NilEmpty.string_of_uint u)) = Z.of_N (Pos.of_uint u).
Proof.
  unfold decimal_value. induction u;
    cbn [py list_ascii_of_string NilEmpty.string_of_uint fold_left
         Pos.of_uint Z.of_N];
    [reflexivity | exact IHu | ..];
    match goal with
    | |- fold_left _ _ (decimal_step 0 ?c) = Zpos (Pos.of_uint_acc _ ?p) =>
        change (decimal_step 0 c) with (Zpos p); apply uint_string_acc
    end.
Qed.

Lemma str_int_decimal (z : Z) :
  (0 <= z)%Z -> forallb isdecimal_char (str_int z) = true.
Proof.
  destruct z; simpl; intros H; [reflexivity | apply uint_string_decimal | lia].
Qed.

Lemma str_int_nonempty (z : Z) : str_int z <> [].
Proof.
  destruct z; simpl; try discriminate.
  pose proof (DecimalPos.Unsigned.to_uint_nonnil p) as H.
  destruct (Pos.to_uint p); simpl; congruence.
Qed.

(** Reading back the decimal form of a non-negative integer gives the
    integer. *)
Lemma str_int_value (z : Z) :
  (0 <= z)%Z -> decimal_value (str_int z) = z.
Proof.
  destruct z; simpl; intros H; [reflexivity | | lia].
  now rewrite uint_string_value, DecimalPos.Unsigned.of_to.
Qed.

(** ** Value inference *)

Lemma parse_value_unfold (token : str) :
  _parse_value token =
  let t := strip token in
  if wrapped t then
    Return (VList (map strip
      (filter (fun item => nonempty (strip item))
         (split (py ", ") (interior t)))))
  else if is_bool_token t then Return (VBool (str_eqb (lower t) (py "true")))
  else if isdigit t then z <- py_int t ;; Return (VInt z)
  else Return (VStr t).
Proof. reflexivity. Qed.

Lemma has_newline_false (s : str) :
  has_newline s = false <-> ~ In newline s.
Proof.
  unfold has_newline. split.
  - intros H Hin. assert (existsb (ascii_eqb newline) s = true).
    { apply existsb_exists. exists newline. split; [exact Hin|].
      apply ascii_eqb_refl. }
    congruence.
  - intros H. destruct (existsb (ascii_eqb newline) s) eqn:E; [|reflexivity].
    apply existsb_exists in E as [x [Hx Hx']].
    apply ascii_eqb_true in Hx'. subst. contradiction.
Qed.

Lemma plain_text_spec (s : str) :
  plain_text s = true -> s <> [] /\ strip s = s /\ ~ In newline s.
Proof.
  unfold plain_text. rewrite !andb_true_iff, negb_true_iff.
  intros [[Hne Hs] Hn]. repeat split.
  - destruct s; [discriminate | discriminate].
  - now apply str_eqb_true.
  - now apply has_newline_false.
Qed.

(** A well-formed string value is classified as a string, verbatim. *)
Lemma parse_value_string (s : str) :
  string_ok s = true -> _parse_value s = Return (VStr s).
Proof.
  unfold string_ok. rewrite !andb_true_iff, !negb_true_iff.
  intros [[[Hp Hw] Hb] Hd]. apply plain_text_spec in Hp as [_ [Hs _]].
  rewrite parse_value_unfold. cbv zeta. now rewrite Hs, Hw, Hb, Hd.
Qed.

Lemma decimal_forall_no_space (s : str) :
  forallb isdecimal_char s = true ->
  forallb (fun c => negb (isspace c)) s = true.
Proof.
  rewrite !forallb_forall. intros H x Hx.
  now rewrite decimal_not_space by auto.
Qed.

Lemma decimal_lower_id (s : str) :
  forallb isdecimal_char s = true -> lower s = s.
Proof.
  induction s as [|c s IH]; simpl; [reflexivity|].
  intros H. apply andb_true_iff in H as [Hc Hs].
  now rewrite decimal_lower, IH.
Qed.

Lemma decimal_isdigit (s : str) :
  s <> [] -> forallb isdecimal_char s = true -> isdigit s = true.
Proof.
  destruct s as [|c s]; [contradiction|]. intros _ H.
  unfold isdigit. rewrite forallb_forall in *. intros x Hx.
  apply decimal_is_digit. auto.
Qed.

(** A non-empty token of decimal digits is classified as the integer it
    denotes. *)
Lemma parse_value_decimal (s : str) :
  s <> [] -> forallb isdecimal_char s = true ->
  _parse_value s = Return (VInt (decimal_value s)).
Proof.
  intros Hne Hd. rewrite parse_value_unfold. cbv zeta.
  rewrite (strip_no_space s) by now apply decimal_forall_no_space.
  destruct s as [|c s]; [contradiction|].
  pose proof Hd as Hd'. simpl in Hd'. apply andb_true_iff in Hd' as [Hc _].
  assert (Hw : wrapped (c :: s) = false).
  { unfold wrapped. cbn [startswith py list_ascii_of_string].
    now rewrite decimal_not_bracket. }
  assert (Hb : is_bool_token (c :: s) = false).
  { unfold is_bool_token. rewrite decimal_lower_id by exact Hd.
    cbn [str_eqb py list_ascii_of_string].
    now rewrite decimal_not_t, decimal_not_f. }
  rewrite Hw, Hb, decimal_isdigit by (exact Hd || discriminate).
  unfold py_int. now rewrite Hd.
Qed.

Lemma parse_value_int (z : Z) :
  (0 <= z)%Z -> _parse_value (str_int z) = Return (VInt z).
Proof.
  intros H. rewrite parse_value_decimal.
  - now rewrite str_int_value.
  - apply str_int_nonempty.
  - now apply str_int_decimal.
Qed.

Lemma int_ok_nonneg (z : Z) : int_ok z = true -> (0 <= z)%Z.
Proof.
  unfold int_ok. rewrite andb_true_iff. intros [H _]. now apply Z.leb_le.
Qed.

(** The numeral of a well-formed Integer is within the limit of [int]. *)
Lemma int_ok_numeral_length (z : Z) (indent : nat) :
  int_ok z = true ->
  length (_format_value (VInt z) indent) <= default_max_str_digits.
Proof.
  intros H. pose proof (int_ok_nonneg z H) as Hz.
  unfold int_ok in H. apply andb_true_iff in H as [_ H].
  apply Nat.leb_le in H. unfold digits in H.
  now rewrite Z.abs_eq in H by exact Hz.
Qed.

Lemma digits_examples :
  digits 0 = 1 /\ digits 7 = 1 /\ digits 12345 = 5 /\ digits (-120) = 3.
Proof. repeat split. Qed.

Lemma parse_value_bool (b : bool) (indent : nat) :
  _parse_value (_format_value (VBool b) indent) = Return (VBool b).
Proof. destruct b; reflexivity. Qed.

Lemma item_ok_spec (s : str) :
  item_ok s = true ->
  s <> [] /\ strip s = s /\ ~ In newline s /\ contains (py ", ") s = false.
Proof.
  unfold item_ok. rewrite andb_true_iff, negb_true_iff.
  intros [Hp Hc]. apply plain_text_spec in Hp. tauto.
Qed.

Lemma items_keep (items : list str) :
  forallb item_ok items = true ->
  map strip (filter (fun item => nonempty (strip item)) items) = items.
Proof.
  induction items as [|a items IH]; simpl; [reflexivity|].
  intros H. apply andb_true_iff in H as [Ha Hs].
  apply item_ok_spec in Ha as [Hne [Hst _]].
  rewrite Hst. destruct a; [contradiction|]. simpl.
  now rewrite Hst, IH.
Qed.

Lemma items_pieces (items : list str) :
  forallb item_ok items = true -> Forall (piece_ok (py ", ")) items.
Proof.
  rewrite forallb_forall, Forall_forall. intros H x Hx.
  apply H, item_ok_spec in Hx as [_ [_ [_ Hc]]].
  apply piece_ok_two; [exact Hc | discriminate].
Qed.

Lemma items_split (items : list str) :
  forallb item_ok items = true ->
  map strip (filter (fun item => nonempty (strip item))
               (split (py ", ") (join (py ", ") items))) = items.
Proof.
  intros H. destruct items as [|a items]; [reflexivity|].
  rewrite split_join.
  - now apply items_keep.
  - discriminate.
  - discriminate.
  - now apply items_pieces.
Qed.

Lemma bracket_token (body : str) :
  let t := py "[" ++ body ++ py "]" in
  strip t = t /\ wrapped t = true /\ interior t = body.
Proof.
  cbv zeta. repeat split.
  - apply (strip_ends "[" body "]"); reflexivity.
  - unfold wrapped, endswith.
    now rewrite !rev_app_distr, <- app_assoc, !startswith_app.
  - unfold interior. simpl. apply removelast_last.
Qed.

(** A list of well-formed items is rendered to a token that decodes to
    the same list. *)
Lemma parse_value_items (items : list str) (indent : nat) :
  forallb item_ok items = true ->
  _parse_value (_format_value (VList items) indent) = Return (VList items).
Proof.
  intros H.
  change (_format_value (VList items) indent)
    with (py "[" ++ join (py ", ") items ++ py "]").
  destruct (bracket_token (join (py ", ") items)) as [Hs [Hw Hi]].
  rewrite parse_value_unfold. cbv zeta.
  rewrite Hs, Hw, Hi, items_split by exact H. reflexivity.
Qed.

(** Every well-formed scalar or list value is recovered from its
    rendering. *)
Lemma parse_value_format (v : value) (indent : nat) :
  scalar_ok v = true ->
  _parse_value (_format_value v indent) = Return v.
Proof.
  destruct v; simpl scalar_ok; intros H.
  - now apply parse_value_string.
  - apply parse_value_int. now apply int_ok_nonneg.
  - apply parse_value_bool.
  - now apply parse_value_items.
  - discriminate.
Qed.

(** ** The block parser: termination and progress *)

(** Value inference has no recursion: it returns or raises. *)
Lemma parse_value_ends (token : str) : _parse_value token <> NoFuel.
Proof.
  rewrite parse_value_unfold. cbv zeta.
  destruct (wrapped (strip token)); [discriminate|].
  destruct (is_bool_token (strip token)); [discriminate|].
  destruct (isdigit (strip token)); [|discriminate].
  unfold py_int. destruct (forallb isdecimal_char (strip token)); discriminate.
Qed.

Lemma bind_return {A B} (m : outcome A) (k : A -> outcome B) (b : B) :
  bind m k = Return b -> exists a, m = Return a /\ k a = Return b.
Proof. destruct m; simpl; intros H; try discriminate. eauto. Qed.

Lemma parse_loop_unfold (fuel : nat) (lines : list str) (cur : nat)
    (result : dict) (i : nat) :
  parse_loop (S fuel) lines cur result i =
  match nth_error lines i with
  | None => Return (result, i)
  | Some line =>
      if is_blank line then parse_loop fuel lines cur result (i + 1)
      else if leading line <? cur then Return (result, i)
      else if cur <? leading line then parse_loop fuel lines cur result (i + 1)
      else if contains (py ": ") (strip line) then
        let (key, raw) := split_once (py ": ") (strip line) in
        v <- _parse_value raw ;;
        parse_loop fuel lines cur (dict_set result key v) (i + 1)
      else if endswith (strip line) (py ":") then
        r <- parse_loop fuel lines (entry_indent lines (i + 1)) [] (i + 1) ;;
        parse_loop fuel lines cur
          (dict_set result (removelast (strip line)) (VDict (fst r))) (snd r)
      else parse_loop fuel lines cur result (i + 1)
  end.
Proof. reflexivity. Qed.

Lemma loop_post_later (lines : list str) (cur i i' : nat)
    (out : outcome (dict * nat)) :
  i <= i' -> loop_post lines cur i' out -> loop_post lines cur i out.
Proof.
  destruct out as [[m j]| |]; simpl; auto. intros H [H1 H2]. split; [lia|auto].
Qed.

(** With more fuel than lines left, the loop ends: it raises or returns,
    and when it returns the index has not moved back and sits on a
    stopping place. *)
Lemma parse_loop_ends (fuel : nat) :
  forall (lines : list str) (cur : nat) (result : dict) (i : nat),
    length lines - i < fuel ->
    loop_post lines cur i (parse_loop fuel lines cur result i).
Proof.
  induction fuel as [|fuel IH]; intros lines cur result i Hfuel; [lia|].
  rewrite parse_loop_unfold.
  destruct (nth_error lines i) as [line|] eqn:Hline.
  2:{ simpl. split; [lia | now left]. }
  assert (Hi : i < length lines) by (apply nth_error_Some; congruence).
  assert (Hnext : forall cur' result',
             loop_post lines cur' i
               (parse_loop fuel lines cur' result' (i + 1))).
  { intros cur' result'. apply (loop_post_later _ _ _ (i + 1)); [lia|].
    apply IH. lia. }
  destruct (is_blank line) eqn:Hblank; [apply Hnext|].
  destruct (leading line <? cur) eqn:Hlt.
  { simpl. split; [lia|]. right. exists line. repeat split; auto.
    now apply Nat.ltb_lt. }
  destruct (cur <? leading line); [apply Hnext|].
  destruct (contains (py ": ") (strip line)).
  { destruct (split_once (py ": ") (strip line)) as [key raw].
    pose proof (parse_value_ends raw) as Hv.
    destruct (_parse_value raw); simpl; try tauto. apply Hnext. }
  destruct (endswith (strip line) (py ":")); [|apply Hnext].
  pose proof (IH lines (entry_indent lines (i + 1)) [] (i + 1)) as Hnested.
  destruct (parse_loop fuel lines (entry_indent lines (i + 1)) [] (i + 1))
    as [[nested j]| |]; simpl in *; auto; [|apply Hnested; lia].
  destruct Hnested as [Hj _]; [lia|].
  apply (loop_post_later _ _ _ j); [lia|]. apply IH. lia.
Qed.

(** More fuel does not change an outcome that was reached. *)
Lemma parse_loop_more_fuel (fuel : nat) :
  forall (fuel' : nat) (lines : list str) (cur : nat) (result : dict)
         (i : nat),
    fuel <= fuel' ->
    parse_loop fuel lines cur result i <> NoFuel ->
    parse_loop fuel' lines cur result i = parse_loop fuel lines cur result i.
Proof.
  induction fuel as [|fuel IH]; intros fuel' lines cur result i Hle Hout.
  { simpl in Hout. congruence. }
  destruct fuel' as [|fuel']; [lia|].
  rewrite !parse_loop_unfold in *.
  destruct (nth_error lines i) as [line|]; [|reflexivity].
  destruct (is_blank line); [apply IH; [lia | exact Hout]|].
  destruct (leading line <? cur); [reflexivity|].
  destruct (cur <? leading line); [apply IH; [lia | exact Hout]|].
  destruct (contains (py ": ") (strip line)).
  { destruct (split_once (py ": ") (strip line)) as [key raw].
    pose proof (parse_value_ends raw) as Hv.
    destruct (_parse_value raw); simpl in *; try tauto.
    apply IH; [lia | exact Hout]. }
  destruct (endswith (strip line) (py ":")); [|apply IH; [lia | exact Hout]].
  destruct (parse_loop fuel lines (entry_indent lines (i + 1)) [] (i + 1))
    as [[nested j]| |] eqn:Hnested; simpl in Hout; [| |congruence].
  - rewrite IH by (lia || congruence). rewrite Hnested. simpl.
    apply IH; [lia | exact Hout].
  - rewrite IH by (lia || congruence). rewrite Hnested. reflexivity.
Qed.

(** Any two sufficient amounts of fuel give the same outcome. *)
Lemma parse_loop_fuel_irrelevant (fuel fuel' : nat) (lines : list str)
    (cur : nat) (result : dict) (i : nat) :
  length lines - i < fuel -> length lines - i < fuel' ->
  parse_loop fuel lines cur result i = parse_loop fuel' lines cur result i.
Proof.
  intros H H'.
  assert (Hends : forall f, length lines - i < f ->
                            parse_loop f lines cur result i <> NoFuel).
  { intros f Hf E. pose proof (parse_loop_ends f lines cur result i Hf) as P.
    rewrite E in P. exact P. }
  destruct (Nat.le_ge_cases fuel fuel').
  - symmetry. apply parse_loop_more_fuel; auto.
  - apply parse_loop_more_fuel; auto.
Qed.

(** A call of [_parse_lines] on a line that exists consumes it. *)
Lemma parse_lines_progress (fuel : nat) (lines : list str) (start : nat) :
  length lines - start < fuel -> start < length lines ->
  match _parse_lines fuel lines start with
  | Return (_, j) => start < j
  | _ => True
  end.
Proof.
  intros Hfuel Hstart. unfold _parse_lines, entry_indent.
  destruct fuel as [|fuel]; [lia|]. rewrite parse_loop_unfold.
  destruct (nth_error lines start) as [line|] eqn:Hline.
  2:{ apply nth_error_None in Hline. lia. }
  assert (Hnext : forall result',
             match parse_loop fuel lines (leading line) result' (start + 1)
             with Return (_, j) => start < j | _ => True end).
  { intros result'.
    pose proof (parse_loop_ends fuel lines (leading line) result' (start + 1))
      as P.
    destruct (parse_loop fuel lines (leading line) result' (start + 1))
      as [[m j]| |]; auto. simpl in P. destruct P; lia. }
  destruct (is_blank line); [apply Hnext|].
  rewrite Nat.ltb_irrefl.
  destruct (contains (py ": ") (strip line)).
  { destruct (split_once (py ": ") (strip line)) as [key raw].
    pose proof (parse_value_ends raw) as Hv.
    destruct (_parse_value raw); simpl; try tauto. apply Hnext. }
  destruct (endswith (strip line) (py ":")); [|apply Hnext].
  pose proof (parse_loop_ends fuel lines (entry_indent lines (start + 1)) []
                (start + 1)) as Hnested.
  destruct (parse_loop fuel lines (entry_indent lines (start + 1)) []
              (start + 1)) as [[nested j]| |]; simpl in Hnested |- *; auto.
  destruct Hnested as [Hj _]; [lia|].
  match goal with
  | |- context [parse_loop fuel lines (leading line) ?r j] =>
      pose proof (parse_loop_ends fuel lines (leading line) r j) as P;
      destruct (parse_loop fuel lines (leading line) r j) as [[m j']| |]
  end; auto.
  simpl in P. destruct P as [P _]; lia.
Qed.

(** ** Lines of a well-formed record *)

Lemma split_once_unfold (sep s : str) :
  split_once sep s =
  if startswith s sep then ([], skipn (length sep) s)
  else match s with
       | [] => ([], [])
       | c :: s' => let (a, b) := split_once sep s' in (c :: a, b)
       end.
Proof. destruct s; reflexivity. Qed.

Lemma skipn_prefix (a b : str) : skipn (length a) (a ++ b) = b.
Proof. induction a; simpl; auto. Qed.

(** [split(sep, 1)] cuts at the end of a piece that lets no separator
    start inside it. *)
Lemma split_once_piece (sep a rest : str) :
  piece_ok sep a -> split_once sep (a ++ sep ++ rest) = (a, rest).
Proof.
  induction a as [|c a IH]; intros Hok.
  - change ([] ++ sep ++ rest) with (sep ++ rest).
    now rewrite split_once_unfold, startswith_app, skipn_prefix.
  - rewrite split_once_unfold, <- app_comm_cons.
    rewrite (piece_ok_head _ _ _ _ Hok).
    rewrite IH by (eapply piece_ok_tail; eauto). reflexivity.
Qed.

Lemma dict_set_fresh (d : dict) (key : str) (v : value) :
  ~ In key (map fst d) -> dict_set d key v = d ++ [(key, v)].
Proof.
  induction d as [|[k w] d IH]; simpl; intros H; [reflexivity|].
  destruct (str_eqb k key) eqn:E.
  - apply str_eqb_true in E. tauto.
  - rewrite IH by tauto. reflexivity.
Qed.

Lemma in_join (c : ascii) (sep : str) (parts : list str) :
  In c (join sep parts) -> In c sep \/ exists p, In p parts /\ In c p.
Proof.
  induction parts as [|a parts IH]; [contradiction|].
  destruct parts as [|b parts].
  - simpl. intros H. right. exists a. auto.
  - rewrite join_cons, !in_app_iff. intros [H|[H|H]].
    + right. exists a. split; [now left | exact H].
    + now left.
    + destruct (IH H) as [H'|[p [Hp Hc]]]; [now left|].
      right. exists p. split; [now right | exact Hc].
Qed.

Lemma join_nonempty (sep : str) (parts : list str) :
  parts <> [] -> Forall (fun p => p <> []) parts -> join sep parts <> [].
Proof.
  destruct parts as [|a parts]; [contradiction|]. intros _ H.
  inversion H; subst. destruct parts; [assumption|].
  rewrite join_cons. destruct a; [contradiction | discriminate].
Qed.

Lemma lstrip_join (sep : str) (parts : list str) :
  Forall (fun p => p <> [] /\ strip p = p) parts ->
  lstrip (join sep parts) = join sep parts.
Proof.
  destruct parts as [|a parts]; [reflexivity|]. intros H.
  inversion H as [|? ? [Hne Hs] _]; subst. apply strip_fixed in Hs as [Hl _].
  destruct parts; [exact Hl|]. rewrite join_cons.
  now apply lstrip_app_nonempty.
Qed.

Lemma rstrip_join (sep : str) (parts : list str) :
  Forall (fun p => p <> [] /\ strip p = p) parts ->
  rstrip (join sep parts) = join sep parts.
Proof.
  induction parts as [|a parts IH]; [reflexivity|]. intros H.
  inversion H as [|? ? [Hne Hs] Hrest]; subst.
  destruct parts as [|b parts].
  - apply strip_fixed in Hs. tauto.
  - rewrite join_cons.
    assert (Hj : join sep (b :: parts) <> []).
    { apply join_nonempty; [discriminate|].
      eapply Forall_impl; [|exact Hrest]. simpl. tauto. }
    apply rstrip_app_nonempty.
    + intros E. apply app_eq_nil in E. tauto.
    + apply rstrip_app_nonempty; [exact Hj | now apply IH].
Qed.

(** Joining non-empty stripped texts gives a stripped text. *)
Lemma strip_join (sep : str) (parts : list str) :
  Forall (fun p => p <> [] /\ strip p = p) parts ->
  strip (join sep parts) = join sep parts.
Proof.
  intros H. apply strip_fixed. split; [now apply lstrip_join|].
  now apply rstrip_join.
Qed.

Lemma contains_absent_char (c : ascii) (t s : str) :
  ~ In c s -> contains (c :: t) s = false.
Proof.
  induction s as [|x s IH]; intros H; [reflexivity|].
  rewrite contains_cons, IH by (intros Hin; apply H; now right).
  rewrite orb_false_r. simpl.
  destruct (ascii_eqb c x) eqn:E; [|reflexivity].
  apply ascii_eqb_true in E. subst. exfalso. apply H. now left.
Qed.

Lemma startswith_char_cons (c x : ascii) (s : str) :
  startswith (x :: s) [c] = ascii_eqb c x.
Proof. simpl. now rewrite startswith_nil, andb_true_r. Qed.

Lemma startswith_absent_char (c : ascii) (s : str) :
  ~ In c s -> startswith s [c] = false.
Proof.
  destruct s as [|x s]; [reflexivity|]. intros H. simpl.
  destruct (ascii_eqb c x) eqn:E; [|reflexivity].
  apply ascii_eqb_true in E. subst. exfalso. apply H. now left.
Qed.

Lemma endswith_app_nonempty (a b : str) (c : ascii) :
  b <> [] -> endswith (a ++ b) [c] = endswith b [c].
Proof.
  unfold endswith. intros H. rewrite rev_app_distr.
  destruct (rev b) eqn:E; [|simpl; now rewrite !startswith_nil].
  apply (f_equal (@rev ascii)) in E. rewrite rev_involutive in E.
  simpl in E. contradiction.
Qed.

Lemma endswith_absent_char (c : ascii) (s : str) :
  ~ In c s -> endswith s [c] = false.
Proof.
  intros H. unfold endswith. apply startswith_absent_char.
  intros Hin. apply H. now apply in_rev.
Qed.

Lemma contains_two_app (c : ascii) (l rest : str) :
  ~ In c l -> l <> [] -> startswith rest [c] = false ->
  contains [c; c] rest = false ->
  contains [c; c] (l ++ [c] ++ rest) = false.
Proof.
  intros Hin Hne Hstart Hrest.
  induction l as [|x l IH]; [contradiction|].
  assert (Hx : ascii_eqb c x = false).
  { apply ascii_eqb_false. intros ->. apply Hin. now left. }
  rewrite <- app_comm_cons, contains_cons.
  assert (Hhead : startswith (x :: l ++ [c] ++ rest) [c; c] = false).
  { simpl. now rewrite Hx. }
  rewrite Hhead, orb_false_l.
  destruct l as [|y l].
  - change ([] ++ [c] ++ rest) with (c :: rest).
    rewrite contains_cons, Hrest, orb_false_r.
    change (startswith (c :: rest) [c; c])
      with (ascii_eqb c c && startswith rest [c]).
    now rewrite Hstart, andb_false_r.
  - apply IH; [|discriminate]. intros H. apply Hin. now right.
Qed.

(** Lines that are not empty and hold no line break join into a block
    without blank line. *)
Lemma joined_lines_no_blank (lines : list str) :
  Forall (fun l => l <> [] /\ ~ In newline l) lines ->
  no_blank_line (join NL lines).
Proof.
  unfold no_blank_line. change NL with [newline].
  change ([newline] ++ [newline]) with [newline; newline].
  induction lines as [|a lines IH]; intros H.
  - repeat split; reflexivity.
  - inversion H as [|? ? [Hne Hnl] Hrest]; subst.
    destruct lines as [|b lines].
    + simpl join. repeat split.
      * now apply contains_absent_char.
      * now apply startswith_absent_char.
      * now apply endswith_absent_char.
    + destruct (IH Hrest) as [Hc [Hs He]]. rewrite join_cons.
      assert (Hj : join [newline] (b :: lines) <> []).
      { apply join_nonempty; [discriminate|].
        eapply Forall_impl; [|exact Hrest]. simpl. tauto. }
      repeat split.
      * now apply contains_two_app.
      * destruct a as [|x a]; [contradiction|].
        rewrite <- app_comm_cons, startswith_char_cons.
        apply ascii_eqb_false. intros E. apply Hnl. left. now symmetry.
      * rewrite endswith_app_nonempty.
        -- now rewrite endswith_app_nonempty.
        -- discriminate.
Qed.

(** A block without blank line lets no record separator start inside
    it. *)
Lemma no_blank_line_piece (block : str) :
  no_blank_line block -> piece_ok SEPARATOR block.
Proof.
  intros [Hc [_ He]].
  change SEPARATOR with (newline :: newline :: skipn 2 SEPARATOR).
  apply piece_ok_two; [exact Hc|].
  intros _ b. now apply endswith_last.
Qed.

(** ** Round trip of well-formed scalar records *)

Lemma decimal_no_newline (s : str) :
  forallb isdecimal_char s = true -> ~ In newline s.
Proof.
  rewrite forallb_forall. intros H Hin. apply H in Hin. discriminate.
Qed.

(** The rendering of a well-formed value fits on one line. *)
Lemma format_plain (v : value) :
  scalar_ok v = true ->
  let fv := _format_value v 0 in
  fv <> [] /\ strip fv = fv /\ ~ In newline fv.
Proof.
  destruct v as [s|z|b|items|fields]; simpl scalar_ok; intros H; cbv zeta.
  - unfold string_ok in H. rewrite !andb_true_iff in H.
    apply plain_text_spec. tauto.
  - apply int_ok_nonneg in H. pose proof (str_int_decimal z H) as Hd.
    repeat split.
    + apply str_int_nonempty.
    + apply strip_no_space. now apply decimal_forall_no_space.
    + now apply decimal_no_newline.
  - destruct b; repeat split; try discriminate;
      vm_compute; intuition discriminate.
  - change (_format_value (VList items) 0)
      with (py "[" ++ join (py ", ") items ++ py "]").
    destruct (bracket_token (join (py ", ") items)) as [Hs _].
    repeat split; [discriminate | exact Hs |].
    intros Hin. apply in_app_iff in Hin as [Hin|Hin].
    { vm_compute in Hin. intuition discriminate. }
    apply in_app_iff in Hin as [Hin|Hin].
    2:{ vm_compute in Hin. intuition discriminate. }
    apply in_join in Hin as [Hin|[p [Hp Hin]]].
    { vm_compute in Hin. intuition discriminate. }
    rewrite forallb_forall in H. apply H, item_ok_spec in Hp. tauto.
  - discriminate.
Qed.

Lemma key_ok_spec (k : str) :
  key_ok k = true ->
  lstrip k = k /\ ~ In newline k /\ piece_ok (py ": ") k.
Proof.
  unfold key_ok. rewrite !andb_true_iff, !negb_true_iff.
  intros [[Hl Hn] Hc]. repeat split.
  - now apply str_eqb_true.
  - now apply has_newline_false.
  - apply piece_ok_two; [exact Hc | discriminate].
Qed.

(** The line of a well-formed field: not blank, not indented, holding
    no line break, and cut by [split(": ", 1)] into the key and the
    rendered value. *)
Lemma field_line_spec (kv : str * value) :
  field_ok kv = true ->
  let line := field_line kv in
  line <> [] /\ strip line = line /\ ~ In newline line
  /\ contains (py ": ") line = true
  /\ split_once (py ": ") line = (fst kv, _format_value (snd kv) 0).
Proof.
  destruct kv as [k v]. unfold field_ok, field_line. simpl fst. simpl snd.
  rewrite andb_true_iff. intros [Hk Hv]. cbv zeta.
  apply key_ok_spec in Hk as [Hkl [Hkn Hkp]].
  destruct (format_plain v Hv) as [Hne [Hs Hn]].
  apply strip_fixed in Hs as [Hsl Hsr].
  repeat split.
  - intros E. apply app_eq_nil in E as [_ E]. discriminate.
  - apply strip_fixed. split.
    + apply lstrip_fixed_app; [exact Hkl | reflexivity].
    + apply rstrip_app_nonempty; [discriminate|].
      now apply rstrip_app_nonempty.
  - rewrite !in_app_iff. intros [H|[H|H]]; auto.
    vm_compute in H. intuition discriminate.
  - apply contains_app_r, contains_here.
  - now apply split_once_piece.
Qed.

Lemma record_lines_scalar (record : dict) :
  forallb field_ok record = true ->
  record_lines record = map field_line record.
Proof.
  unfold record_lines. induction record as [|[k v] r IH]; simpl;
    [reflexivity|].
  intros H. apply andb_true_iff in H as [Hf Hr]. rewrite IH by exact Hr.
  unfold field_ok in Hf. apply andb_true_iff in Hf as [_ Hv]. simpl in Hv.
  destruct v; try reflexivity; discriminate.
Qed.

(** The loop adds the fields of a well-formed record one by one, in
    order, and ends at the end of the input. *)
Lemma parse_loop_fields (post : dict) :
  forall (pre : dict) (fuel : nat),
    NoDup (map fst (pre ++ post)) ->
    forallb field_ok post = true ->
    length post < fuel ->
    parse_loop fuel (map field_line (pre ++ post)) 0 pre (length pre)
    = Return (pre ++ post, length (pre ++ post)).
Proof.
  induction post as [|[k v] post IH]; intros pre fuel Hnd Hok Hfuel.
  - destruct fuel as [|fuel]; [simpl in Hfuel; lia|].
    rewrite parse_loop_unfold, List.app_nil_r.
    replace (nth_error (map field_line pre) (length pre)) with (@None str).
    + reflexivity.
    + symmetry. apply nth_error_None. rewrite length_map. lia.
  - destruct fuel as [|fuel]; [simpl in Hfuel; lia|].
    simpl in Hok. apply andb_true_iff in Hok as [Hf Hrest].
    destruct (field_line_spec (k, v) Hf) as [Hne [Hs [_ [Hc Hsplit]]]].
    rewrite parse_loop_unfold.
    replace (nth_error (map field_line (pre ++ (k, v) :: post)) (length pre))
      with (Some (field_line (k, v))).
    2:{ rewrite map_app, nth_error_app2 by (rewrite length_map; lia).
        rewrite length_map, Nat.sub_diag. reflexivity. }
    rewrite is_blank_fixed by assumption.
    rewrite leading_fixed by (apply strip_fixed in Hs; tauto).
    rewrite Nat.ltb_irrefl, Hs, Hc, Hsplit. simpl fst. simpl snd.
    unfold field_ok in Hf. apply andb_true_iff in Hf as [_ Hv]. simpl in Hv.
    rewrite parse_value_format by exact Hv. simpl bind.
    rewrite dict_set_fresh.
    2:{ rewrite map_app in Hnd. simpl in Hnd.
        apply NoDup_remove_2 in Hnd. intros Hin. apply Hnd.
        apply in_app_iff. now left. }
    replace (pre ++ (k, v) :: post) with ((pre ++ [(k, v)]) ++ post)
      by (rewrite <- app_assoc; reflexivity).
    replace (length pre + 1) with (length (pre ++ [(k, v)]))
      by (rewrite length_app; reflexivity).
    apply IH.
    + now rewrite <- app_assoc.
    + exact Hrest.
    + simpl in Hfuel. lia.
Qed.

Lemma record_block_spec (record : dict) :
  record_wf record ->
  let block := record_block record in
  block <> [] /\ strip block = block /\ no_blank_line block
  /\ split NL block = map field_line record.
Proof.
  intros [Hne [Hnd Hok]]. cbv zeta. unfold record_block.
  rewrite record_lines_scalar by exact Hok.
  assert (Hall : Forall (fun l => l <> [] /\ strip l = l /\ ~ In newline l)
                   (map field_line record)).
  { apply Forall_forall. intros l Hl. apply in_map_iff in Hl as [kv [<- Hkv]].
    rewrite forallb_forall in Hok.
    destruct (field_line_spec kv (Hok kv Hkv)) as [H1 [H2 [H3 _]]]. auto. }
  assert (Hmap : map field_line record <> []).
  { destruct record; [contradiction | discriminate]. }
  repeat split.
  - apply join_nonempty; [exact Hmap|].
    eapply Forall_impl; [|exact Hall]. simpl. tauto.
  - apply strip_join. eapply Forall_impl; [|exact Hall]. simpl. tauto.
  - apply joined_lines_no_blank.
    eapply Forall_impl; [|exact Hall]. simpl. tauto.
  - apply joined_lines_no_blank.
    eapply Forall_impl; [|exact Hall]. simpl. tauto.
  - apply joined_lines_no_blank.
    eapply Forall_impl; [|exact Hall]. simpl. tauto.
  - apply split_join; [discriminate | exact Hmap |].
    eapply Forall_impl; [|exact Hall]. simpl. intros l [_ [_ Hl]].
    now apply piece_ok_char.
Qed.

(** One turn of the decoder's loop on the block of a well-formed record
    appends that record. *)
Lemma decode_step_block (records : dataset) (record : dict) :
  record_wf record ->
  decode_step records (record_block record) = Return (records ++ [record]).
Proof.
  intros Hok. destruct (record_block_spec record Hok) as [_ [Hs [_ Hsplit]]].
  destruct Hok as [Hne [Hnd Hok]].
  unfold decode_step. rewrite Hs, Hsplit.
  destruct record as [|kv record]; [contradiction|].
  change (map field_line (kv :: record))
    with (field_line kv :: map field_line record) at 1.
  cbv iota. cbv zeta.
  unfold _parse_lines, entry_indent, fuel_for.
  change (nth_error (map field_line (kv :: record)) 0)
    with (Some (field_line kv)).
  cbv iota.
  assert (Hkv : field_ok kv = true).
  { simpl in Hok. apply andb_true_iff in Hok. tauto. }
  destruct (field_line_spec kv Hkv) as [_ [Hl _]].
  rewrite leading_fixed by (apply strip_fixed in Hl; tauto).
  rewrite (parse_loop_fields (kv :: record) [] _ Hnd Hok).
  - reflexivity.
  - rewrite length_map. simpl. lia.
Qed.

Lemma decode_loop_blocks (data : dataset) :
  forall records : dataset,
    Forall record_wf data ->
    decode_loop (map record_block data) records = Return (records ++ data).
Proof.
  induction data as [|record data IH]; intros records Hall; simpl.
  - now rewrite List.app_nil_r.
  - inversion Hall; subst. rewrite decode_step_block by assumption.
    simpl bind. rewrite IH by assumption. now rewrite <- app_assoc.
Qed.

Lemma encoded_text_spec (data : dataset) :
  data <> [] -> Forall record_wf data ->
  strip (dict_to_toon data) = dict_to_toon data
  /\ split SEPARATOR (dict_to_toon data) = map record_block data.
Proof.
  intros Hne Hall. unfold dict_to_toon.
  assert (Hblocks : Forall (fun b => b <> [] /\ strip b = b
                                     /\ piece_ok SEPARATOR b)
                      (map record_block data)).
  { apply Forall_forall. intros b Hb. apply in_map_iff in Hb as [r [<- Hr]].
    rewrite Forall_forall in Hall.
    destruct (record_block_spec r (Hall r Hr)) as [H1 [H2 [H3 _]]].
    repeat split; auto. now apply no_blank_line_piece. }
  split.
  - apply strip_join. eapply Forall_impl; [|exact Hblocks]. simpl. tauto.
  - apply split_join.
    + discriminate.
    + destruct data; [contradiction | discriminate].
    + eapply Forall_impl; [|exact Hblocks]. simpl. tauto.
Qed.

Lemma distinct_NoDup (keys : list str) :
  distinct keys = true -> NoDup keys.
Proof.
  induction keys as [|k keys IH]; simpl; intros H; constructor.
  - apply andb_true_iff in H as [H _]. apply negb_true_iff in H.
    intros Hin. assert (existsb (str_eqb k) keys = true); [|congruence].
    apply existsb_exists. exists k. split; [exact Hin | apply str_eqb_refl].
  - apply IH. apply andb_true_iff in H. tauto.
Qed.

Lemma record_ok_wf (record : dict) :
  record_ok record = true -> record_wf record.
Proof.
  destruct record as [|kv record]; [discriminate|].
  unfold record_ok. rewrite andb_true_iff. intros [Hd Hf].
  repeat split; [discriminate | now apply distinct_NoDup | exact Hf].
Qed.

(** * The claims *)

(** ** C1: round trip on scalar data *)

(** C1, as stated, fails: a dataset may hold a record without fields,
    which is encoded to the empty block and dropped on decoding, and a
    String field may hold a casing of "true", which decodes to a
    Boolean.  Both datasets meet the stated hypothesis (only scalar and
    list fields, no digit-only string, no ": " in a value). *)
Lemma round_trip_as_stated_fails :
  (claimed_dataset [[]] = true
   /\ toon_to_dict (dict_to_toon [[]]) = Return []
   /\ toon_to_dict (dict_to_toon [[]]) <> Return [[]])
  /\
  (claimed_dataset [[(py "flag", VStr (py "true"))]] = true
   /\ toon_to_dict (dict_to_toon [[(py "flag", VStr (py "true"))]])
      = Return [[(py "flag", VBool true)]]
   /\ toon_to_dict (dict_to_toon [[(py "flag", VStr (py "true"))]])
      <> Return [[(py "flag", VStr (py "true"))]]).
Proof.
  repeat split; try reflexivity; vm_compute; discriminate.
Qed.

(** C1 (amended): for every dataset whose records each have at least one
    field, distinct keys (no leading whitespace, no line break, no ": ")
    and only String, Integer, Boolean and List values that are well
    formed (strings and list items not empty, with nothing for strip to
    remove and no line break; strings not bracket-wrapped, not a casing
    of true or false, not all digits; integers not negative and of at
    most 4300 digits, the most that str writes and int reads; list items
    without ", "), decoding the encoded dataset returns the dataset
    itself: same records in the same order, same fields in the same
    order. *)
Theorem round_trip_scalar_data (data : dataset) :
  forallb record_ok data = true ->
  toon_to_dict (dict_to_toon data) = Return data.
Proof.
  intros H.
  assert (Hall : Forall record_wf data).
  { apply Forall_forall. intros r Hr. apply record_ok_wf.
    rewrite forallb_forall in H. now apply H. }
  destruct data as [|r data]; [reflexivity|].
  destruct (encoded_text_spec (r :: data)) as [Hs Hsplit];
    [discriminate | exact Hall |].
  unfold toon_to_dict. rewrite Hs, Hsplit.
  apply (decode_loop_blocks (r :: data) [] Hall).
Qed.

Lemma round_trip_scalar_data_witness :
  forallb record_ok sample_small = true
  /\ toon_to_dict (dict_to_toon sample_small) = Return sample_small.
Proof.
  split; [reflexivity|].
  apply (round_trip_scalar_data sample_small). reflexivity.
Defined.

(** ** C2: nested object round trip *)

(** C2: the record with name "Jenil" and an address object of city "X"
    and zip "12345" is encoded to four lines and decoded to a record
    with name -> String "Jenil" and address -> an Object with
    city -> String "X" and zip -> Integer 12345, in that order. *)
Theorem nested_object_round_trip :
  dict_to_toon [jenil_nested]
  = join NL [py "name: Jenil"; py "address:"; py "  city: X";
             py "  zip: 12345"]
  /\ toon_to_dict (dict_to_toon [jenil_nested])
     = Return [ [ (py "name", VStr (py "Jenil"));
                  (py "address", VDict [ (py "city", VStr (py "X"));
                                         (py "zip", VInt 12345) ]) ] ].
Proof. split; reflexivity. Qed.

(** ** C3: priority order of value inference *)

(** The classification [_parse_value] performs, test by test.  It is the
    order of C3 with one more case: a token of digit characters that are
    not all decimal digits passes [isdigit()] and is then refused by
    [int()]. *)
Lemma parse_value_priority (token : str) :
  let t := strip token in
  _parse_value token =
  if wrapped t then
    Return (VList (map strip
      (filter (fun item => nonempty (strip item))
         (split (py ", ") (interior t)))))
  else if is_bool_token t then Return (VBool (str_eqb (lower t) (py "true")))
  else if nonempty t && forallb isdecimal_char t then
    Return (VInt (decimal_value t))
  else if isdigit t then Raise ValueError
  else Return (VStr t).
Proof.
  cbv zeta. rewrite parse_value_unfold. cbv zeta.
  destruct (wrapped (strip token)); [reflexivity|].
  destruct (is_bool_token (strip token)); [reflexivity|].
  destruct (strip token) as [|c t] eqn:E; [reflexivity|].
  cbn [nonempty andb]. unfold py_int.
  destruct (forallb isdecimal_char (c :: t)) eqn:Hd.
  - rewrite decimal_isdigit by (discriminate || exact Hd). reflexivity.
  - destruct (isdigit (c :: t)); reflexivity.
Qed.

Lemma parse_value_edge_cases :
  _parse_value (py "-5") = Return (VStr (py "-5"))
  /\ _parse_value (py "007") = Return (VInt 7)
  /\ _parse_value (py "") = Return (VStr (py ""))
  /\ _parse_value (py "[1, true]") = Return (VList [py "1"; py "true"])
  /\ _parse_value (py "TRUE") = Return (VBool true).
Proof. repeat split; reflexivity. Qed.

(** C3: the priority order holds for every token but those made of
    digit characters that are not all decimal: the token of the single
    character U+00B2 (superscript two) is not bracket-wrapped, is no
    casing of true or false, and is not made of decimal digits, so C3
    classifies it as a String; [_parse_value] raises ValueError on it,
    because [isdigit()] accepts the character and [int()] does not. *)
Theorem superscript_token_raises :
  wrapped superscript_two = false
  /\ is_bool_token superscript_two = false
  /\ forallb isdecimal_char superscript_two = false
  /\ isdigit superscript_two = true
  /\ _parse_value superscript_two = Raise ValueError.
Proof. repeat split; reflexivity. Qed.

(** ** C4: list formatting *)

Lemma strip_then_drop (items : list str) :
  map strip (filter (fun item => nonempty (strip item)) items)
  = filter nonempty (map strip items).
Proof.
  induction items as [|a items IH]; simpl; [reflexivity|].
  destruct (nonempty (strip a)); simpl; now rewrite IH.
Qed.

(** C4: the field skills -> ["C#", ".NET", "Angular"] is encoded to the
    line [skills: [C#, .NET, Angular]], that line decodes to the same
    list of strings, and for every bracket-wrapped token the interior is
    split on ", ", every piece is stripped, empty pieces are dropped and
    the pieces that remain are the String elements of the List. *)
Theorem list_field_format :
  record_lines skills_record = [py "skills: [C#, .NET, Angular]"]
  /\ dict_to_toon [skills_record] = py "skills: [C#, .NET, Angular]"
  /\ toon_to_dict (py "skills: [C#, .NET, Angular]") = Return [skills_record]
  /\ forall body : str,
       _parse_value (py "[" ++ body ++ py "]")
       = Return (VList (filter nonempty (map strip (split (py ", ") body)))).
Proof.
  repeat split; try reflexivity.
  intros body. destruct (bracket_token body) as [Hs [Hw Hi]].
  rewrite parse_value_unfold. cbv zeta.
  now rewrite Hs, Hw, Hi, strip_then_drop.
Qed.

(** ** C9: Boolean casing *)

(** Every token whose lower-case form is "true" or "false" is a
    Boolean, whatever surrounds it in whitespace. *)
Lemma parse_value_bool_token (token : str) (b : bool) :
  lower (strip token) = py (if b then "true" else "false") ->
  _parse_value token = Return (VBool b).
Proof.
  intros H. rewrite parse_value_unfold. cbv zeta.
  assert (Hw : wrapped (strip token) = false).
  { unfold wrapped. destruct (strip token) as [|c t]; [reflexivity|].
    cbn [startswith py list_ascii_of_string].
    destruct b; simpl in H; inversion H as [[Hc Ht]].
    - now rewrite lower_t_not_bracket.
    - now rewrite lower_f_not_bracket. }
  rewrite Hw. unfold is_bool_token. rewrite H. destruct b; reflexivity.
Qed.

(** C9: every casing of "true" decodes to the Boolean true and every
    casing of "false" to the Boolean false, and a Boolean is encoded as
    the lower-case word "true" or "false" at any nesting depth. *)
Theorem boolean_casing (b : bool) (token : str) (indent : nat) :
  In token (casings (py (if b then "true" else "false"))) ->
  _parse_value token = Return (VBool b)
  /\ _format_value (VBool b) indent = py (if b then "true" else "false").
Proof.
  intros H. split; [|destruct b; reflexivity].
  apply parse_value_bool_token.
  destruct b; vm_compute in H;
    repeat (destruct H as [<-|H]; [reflexivity|]); contradiction.
Qed.

Lemma boolean_casing_witness :
  In (py "TrUe") (casings (py "true"))
  /\ _parse_value (py "TrUe") = Return (VBool true)
  /\ _format_value (VBool true) 0 = py "true".
Proof.
  assert (H : In (py "TrUe") (casings (py "true"))).
  { vm_compute. repeat first [left; reflexivity | right]. }
  split; [exact H|]. exact (boolean_casing true (py "TrUe") 0 H).
Defined.

(** ** C5: separator exactness *)

Lemma occurrences_skip (sep : str) (c : ascii) (s : str) (pos : nat) :
  startswith (c :: s) sep = false ->
  occurrences sep (c :: s) pos = occurrences sep s (S pos).
Proof. intros H. now rewrite occurrences_cons, H. Qed.

Lemma dashes_then_blank (block : str) :
  contains (NL ++ NL) block = false ->
  startswith block (skipn 2 SEPARATOR) = false.
Proof.
  intros H. destruct (startswith block (skipn 2 SEPARATOR)) eqn:E;
    [|reflexivity].
  apply startswith_true in E as [r ->].
  change (skipn 2 SEPARATOR) with (py "--------" ++ (NL ++ NL)) in H.
  rewrite <- !app_assoc in H.
  rewrite contains_app_r in H; [discriminate|].
  rewrite app_assoc. apply contains_here.
Qed.

Lemma occurrences_cons_sep (block : str) (pos : nat) :
  occurrences SEPARATOR (SEPARATOR ++ block) pos
  = pos :: occurrences SEPARATOR (skipn 1 SEPARATOR ++ block) (S pos).
Proof.
  change (SEPARATOR ++ block) with (newline :: (skipn 1 SEPARATOR ++ block)).
  rewrite occurrences_cons.
  change (newline :: (skipn 1 SEPARATOR ++ block)) with (SEPARATOR ++ block).
  now rewrite startswith_app.
Qed.

(** Right after a separator, a block without blank line lets no other
    occurrence begin. *)
Lemma occurrences_after_separator (block : str) (pos : nat) :
  no_blank_line block ->
  occurrences SEPARATOR (SEPARATOR ++ block) pos = [pos].
Proof.
  intros [Hc [Hs _]].
  assert (Hblock : occurrences SEPARATOR block (12 + pos) = []).
  { apply occurrences_none.
    change SEPARATOR with ((NL ++ NL) ++ skipn 2 SEPARATOR).
    now apply contains_longer_false. }
  assert (H10 : startswith (newline :: newline :: block) SEPARATOR = false).
  { change SEPARATOR with (newline :: newline :: skipn 2 SEPARATOR).
    cbn [startswith]. rewrite !ascii_eqb_refl. cbn [andb].
    now apply dashes_then_blank. }
  assert (H11 : startswith (newline :: block) SEPARATOR = false).
  { change SEPARATOR with (newline :: ([newline] ++ skipn 2 SEPARATOR)).
    cbn [startswith]. rewrite ascii_eqb_refl. cbn [andb].
    now apply startswith_longer_false. }
  rewrite occurrences_cons_sep.
  let t := eval vm_compute in (skipn 1 SEPARATOR) in
  change (skipn 1 SEPARATOR) with t.
  cbn [app].
  do 9 (rewrite occurrences_skip by reflexivity).
  rewrite occurrences_skip by exact H10.
  rewrite occurrences_skip by exact H11.
  change (pos :: occurrences SEPARATOR block (12 + pos) = [pos]).
  now rewrite Hblock.
Qed.

(** C5, as stated, fails: the encoder copies a string value verbatim,
    so a one-record dataset whose string holds the separator is encoded
    to a text in which the separator occurs. *)
Lemma separator_inside_value :
  length separator_in_value = 1
  /\ dict_to_toon separator_in_value = py "a: x" ++ SEPARATOR ++ py "y"
  /\ occurrences SEPARATOR (dict_to_toon separator_in_value) 0 = [4].
Proof. repeat split; reflexivity. Qed.

(** Two blocks without blank line around one separator: the separator
    occurs once, at the end of the first block, and in neither block. *)
Lemma separator_between_blocks (r1 r2 : dict) :
  no_blank_line (record_block r1) -> no_blank_line (record_block r2) ->
  dict_to_toon [r1; r2] = record_block r1 ++ SEPARATOR ++ record_block r2
  /\ occurrences SEPARATOR (dict_to_toon [r1; r2]) 0
     = [length (record_block r1)]
  /\ occurrences SEPARATOR (dict_to_toon [r1]) 0 = []
  /\ occurrences SEPARATOR (dict_to_toon [r2]) 0 = [].
Proof.
  intros H1 H2.
  assert (Hnone : forall b, no_blank_line b ->
                            occurrences SEPARATOR b 0 = []).
  { intros b [Hc _]. apply occurrences_none.
    change SEPARATOR with ((NL ++ NL) ++ skipn 2 SEPARATOR).
    now apply contains_longer_false. }
  repeat split.
  - unfold dict_to_toon. cbn [map join].
    rewrite occurrences_piece by now apply no_blank_line_piece.
    now rewrite occurrences_after_separator.
  - now apply Hnone.
  - now apply Hnone.
Qed.

(** C5 (amended): for two records whose rendered blocks have no blank
    line (no two line breaks in a row and none at either end, as is the
    case when no key, string or list item holds a line break and no
    Object is empty), the encoded text is the first block, the
    separator, the second block; the separator occurs in it exactly
    once, at the end of the first block; and the encoding of either
    record alone holds no occurrence. *)
Theorem separator_exactness (r1 r2 : dict) :
  no_blank_line (record_block r1) -> no_blank_line (record_block r2) ->
  dict_to_toon [r1; r2] = record_block r1 ++ SEPARATOR ++ record_block r2
  /\ occurrences SEPARATOR (dict_to_toon [r1; r2]) 0
     = [length (record_block r1)]
  /\ occurrences SEPARATOR (dict_to_toon [r1]) 0 = []
  /\ occurrences SEPARATOR (dict_to_toon [r2]) 0 = [].
Proof. apply separator_between_blocks. Qed.

Lemma separator_exactness_witness :
  no_blank_line (record_block jenil_nested)
  /\ no_blank_line (record_block skills_record)
  /\ occurrences SEPARATOR (dict_to_toon [jenil_nested; skills_record]) 0
     = [length (record_block jenil_nested)].
Proof.
  assert (H1 : no_blank_line (record_block jenil_nested))
    by (repeat split; reflexivity).
  assert (H2 : no_blank_line (record_block skills_record))
    by (repeat split; reflexivity).
  split; [exact H1|]. split; [exact H2|].
  exact (proj1 (proj2 (separator_exactness jenil_nested skills_record H1 H2))).
Defined.

(** The separator only ever stands between two blocks: the encoded text
    of a non-empty dataset is the first block followed, for each further
    record, by a separator and that record's block. *)
Lemma separator_only_between (record : dict) (rest : dataset) :
  dict_to_toon (record :: rest)
  = record_block record
    ++ flat_map (fun r => SEPARATOR ++ record_block r) rest.
Proof.
  unfold dict_to_toon. revert record.
  induction rest as [|r rest IH]; intros record.
  - simpl. now rewrite List.app_nil_r.
  - cbn [map flat_map]. rewrite join_cons.
    change (record_block r :: map record_block rest)
      with (map record_block (r :: rest)).
    now rewrite IH, <- !app_assoc.
Qed.

(** Records of well-formed scalar fields are rendered without blank
    line. *)
Lemma scalar_block_no_blank (record : dict) :
  record_ok record = true -> no_blank_line (record_block record).
Proof.
  intros H. apply record_ok_wf in H. now apply record_block_spec.
Qed.

(** *** Blocks of records with nested Objects *)

Lemma line_free_dict (fields : list (str * value)) :
  line_free (VDict fields)
  = nonempty_dict fields && forallb line_free_field fields.
Proof.
  cbn [line_free]. f_equal.
  induction fields as [|[k w] fs IH]; [reflexivity|].
  cbn [forallb]. rewrite <- IH. reflexivity.
Qed.

Lemma format_dict_lines (fields : list (str * value)) (indent : nat) :
  _format_value (VDict fields) indent
  = join NL (flat_map (nested_field_lines indent) fields).
Proof.
  cbn [_format_value]. f_equal.
  induction fields as [|[k w] fs IH]; [reflexivity|].
  cbn [flat_map nested_field_lines]. rewrite <- IH. reflexivity.
Qed.

Lemma contains_two_join (c : ascii) (l rest : str) :
  contains [c; c] l = false -> l <> [] -> endswith l [c] = false ->
  startswith rest [c] = false -> contains [c; c] rest = false ->
  contains [c; c] (l ++ [c] ++ rest) = false.
Proof.
  induction l as [|x l IH]; [contradiction|].
  intros Hc _ He Hs Hr.
  apply contains_false_cons in Hc as [Hc1 Hc2].
  rewrite <- app_comm_cons, contains_cons.
  destruct l as [|y l].
  - assert (Hx : ascii_eqb c x = false).
    { unfold endswith in He. cbn [rev app] in He.
      now rewrite startswith_char_cons in He. }
    change ([] ++ [c] ++ rest) with (c :: rest).
    cbn [startswith]. rewrite Hx. cbn [andb orb].
    rewrite contains_cons, Hr, orb_false_r.
    cbn [startswith]. rewrite ascii_eqb_refl. cbn [andb]. exact Hs.
  - assert (Hhead : startswith (x :: (y :: l) ++ [c] ++ rest) [c; c] = false).
    { cbn [startswith app] in *. now rewrite startswith_nil in *. }
    rewrite Hhead, orb_false_l.
    apply IH; auto; [discriminate|].
    change (x :: y :: l) with ([x] ++ (y :: l)) in He.
    now rewrite endswith_app_nonempty in He by discriminate.
Qed.

Lemma solid_line (l : str) : l <> [] -> ~ In newline l -> solid l.
Proof.
  intros Hne Hn. split; [exact Hne|].
  apply (joined_lines_no_blank [l]). constructor; auto.
Qed.

Lemma solid_pair (a b : str) : solid a -> solid b -> solid (a ++ NL ++ b).
Proof.
  unfold solid, no_blank_line. change NL with [newline].
  change ([newline] ++ [newline]) with [newline; newline].
  intros [Ha [Hac [Has Hae]]] [Hb [Hbc [Hbs Hbe]]].
  destruct a as [|x a]; [contradiction|].
  repeat split.
  - discriminate.
  - now apply contains_two_join.
  - rewrite <- app_comm_cons, startswith_char_cons.
    now rewrite startswith_char_cons in Has.
  - rewrite endswith_app_nonempty by discriminate.
    now rewrite endswith_app_nonempty.
Qed.

(** Non-empty texts without blank line join into such a text. *)
Lemma solid_join (parts : list str) :
  parts <> [] -> Forall solid parts -> solid (join NL parts).
Proof.
  induction parts as [|a parts IH]; [contradiction|]. intros _ H.
  inversion H; subst. destruct parts as [|b parts]; [assumption|].
  rewrite join_cons. apply solid_pair; [assumption|].
  apply IH; [discriminate | assumption].
Qed.

Lemma spaces_no_newline (indent : nat) : ~ In newline (spaces indent).
Proof.
  induction indent as [|n IH]; simpl; [tauto|].
  intros [H|[H|H]]; [discriminate | discriminate | auto].
Qed.

Lemma str_int_no_newline (z : Z) : ~ In newline (str_int z).
Proof.
  destruct z; simpl.
  - intros [H|[]]. discriminate.
  - apply decimal_no_newline, uint_string_decimal.
  - intros [H|H]; [discriminate|].
    revert H. apply decimal_no_newline, uint_string_decimal.
Qed.

(** The pieces of one field: a key line and the block of its Object, or
    one line. *)
Lemma field_pieces_solid (prefix k : str) (w : value) (indent : nat) :
  ~ In newline prefix -> ~ In newline k ->
  (if is_dict w then solid (_format_value w indent)
   else ~ In newline (_format_value w indent)) ->
  Forall solid
    (if is_dict w
     then [prefix ++ k ++ py ":"; _format_value w indent]
     else [prefix ++ k ++ py ": " ++ _format_value w indent]).
Proof.
  intros Hp Hk Hw. destruct (is_dict w).
  - constructor; [|constructor; [exact Hw | constructor]].
    apply solid_line.
    + intros E. apply app_eq_nil in E as [_ E].
      apply app_eq_nil in E as [_ E]. discriminate.
    + rewrite !in_app_iff. intros [H|[H|H]]; auto.
      simpl in H. destruct H as [H|[]]. discriminate.
  - constructor; [|constructor]. apply solid_line.
    + intros E. apply app_eq_nil in E as [_ E].
      apply app_eq_nil in E as [_ E]. discriminate.
    + rewrite !in_app_iff. intros [H|[H|[H|H]]]; auto.
      simpl in H. destruct H as [H|[H|[]]]; discriminate.
Qed.

(** An Object free of line breaks and of empty Objects is rendered to a
    non-empty block without blank line, any other such value to a text
    without line break. *)
Lemma format_value_solid (v : value) :
  forall indent, line_free v = true ->
    if is_dict v then solid (_format_value v indent)
    else ~ In newline (_format_value v indent).
Proof.
  induction v as [s|z|b|items|fields IH] using value_nested_ind;
    intros indent Hlf; cbn [is_dict].
  - simpl in *. apply has_newline_false. now apply negb_true_iff.
  - apply str_int_no_newline.
  - destruct b; vm_compute; intuition discriminate.
  - change (_format_value (VList items) indent)
      with (py "[" ++ join (py ", ") items ++ py "]").
    rewrite !in_app_iff. intros [H|[H|H]].
    + vm_compute in H. intuition discriminate.
    + apply in_join in H as [H|[p [Hp H]]].
      { vm_compute in H. intuition discriminate. }
      simpl in Hlf. rewrite forallb_forall in Hlf.
      apply Hlf, negb_true_iff, has_newline_false in Hp. contradiction.
    + vm_compute in H. intuition discriminate.
  - rewrite line_free_dict in Hlf. apply andb_true_iff in Hlf as [Hne Hall].
    rewrite format_dict_lines. apply solid_join.
    + destruct fields as [|[k w] fs]; [discriminate|].
      cbn [flat_map nested_field_lines]. destruct (is_dict w); discriminate.
    + apply Forall_forall. intros piece Hpiece.
      apply in_flat_map in Hpiece as [[k w] [Hkv Hpiece]].
      rewrite forallb_forall in Hall. pose proof (Hall _ Hkv) as Hf.
      unfold line_free_field in Hf. cbn [fst snd] in Hf.
      apply andb_true_iff in Hf as [Hk Hw].
      apply negb_true_iff, has_newline_false in Hk.
      rewrite Forall_forall in IH. pose proof (IH _ Hkv (S indent) Hw) as Hfw.
      cbn [snd] in Hfw.
      assert (Hpieces :
        Forall solid
          (if is_dict w
           then [(spaces indent ++ py "  ") ++ k ++ py ":";
                 _format_value w (S indent)]
           else [(spaces indent ++ py "  ") ++ k ++ py ": "
                 ++ _format_value w (S indent)])).
      { apply field_pieces_solid; auto.
        rewrite in_app_iff. intros [H|H].
        - now apply spaces_no_newline in H.
        - vm_compute in H. intuition discriminate. }
      rewrite Forall_forall in Hpieces. apply Hpieces.
      unfold nested_field_lines in Hpiece.
      destruct (is_dict w); rewrite <- !app_assoc; exact Hpiece.
Qed.

(** The block of a record free of line breaks and of empty Objects has
    no blank line. *)
Lemma line_free_block_no_blank (record : dict) :
  line_free_record record = true -> no_blank_line (record_block record).
Proof.
  intros H. unfold record_block, record_lines.
  destruct record as [|kv0 record0] eqn:E; [repeat split; reflexivity|].
  rewrite <- E in *. apply solid_join.
  - subst. destruct kv0 as [k w]. cbn [flat_map field_lines].
    destruct (is_dict w); discriminate.
  - apply Forall_forall. intros piece Hpiece.
    apply in_flat_map in Hpiece as [[k w] [Hkv Hpiece]].
    unfold line_free_record in H. rewrite forallb_forall in H.
    pose proof (H _ Hkv) as Hf. unfold line_free_field in Hf.
    cbn [fst snd] in Hf. apply andb_true_iff in Hf as [Hk Hw].
    apply negb_true_iff, has_newline_false in Hk.
    pose proof (field_pieces_solid [] k w 0 (fun F => F) Hk
                  (format_value_solid w 0 Hw)) as Hpieces.
    rewrite Forall_forall in Hpieces. apply Hpieces.
    unfold field_lines in Hpiece. exact Hpiece.
Qed.

(** On data: two records free of line breaks and of empty Objects are
    joined by exactly one separator. *)
Lemma separator_exactness_line_free (r1 r2 : dict) :
  line_free_record r1 = true -> line_free_record r2 = true ->
  occurrences SEPARATOR (dict_to_toon [r1; r2]) 0 = [length (record_block r1)]
  /\ occurrences SEPARATOR (dict_to_toon [r1]) 0 = []
  /\ occurrences SEPARATOR (dict_to_toon [r2]) 0 = [].
Proof.
  intros H1 H2.
  apply (separator_between_blocks r1 r2); now apply line_free_block_no_blank.
Qed.


(** ** C6: lenient recovery *)

(** A line indented deeper than the block is passed over. *)
Lemma skip_deeper_line (fuel : nat) (lines : list str) (cur : nat)
    (result : dict) (i : nat) (line : str) :
  nth_error lines i = Some line -> is_blank line = false ->
  cur < leading line ->
  parse_loop (S fuel) lines cur result i
  = parse_loop fuel lines cur result (i + 1).
Proof.
  intros Hl Hb Hd. rewrite parse_loop_unfold, Hl, Hb.
  replace (leading line <? cur) with false
    by (symmetry; apply Nat.ltb_ge; lia).
  replace (cur <? leading line) with true
    by (symmetry; apply Nat.ltb_lt; lia).
  reflexivity.
Qed.

(** A line at the block's indent that neither holds ": " nor ends in
    ":" is passed over. *)
Lemma skip_shapeless_line (fuel : nat) (lines : list str) (cur : nat)
    (result : dict) (i : nat) (line : str) :
  nth_error lines i = Some line -> is_blank line = false ->
  leading line = cur ->
  contains (py ": ") (strip line) = false ->
  endswith (strip line) (py ":") = false ->
  parse_loop (S fuel) lines cur result i
  = parse_loop fuel lines cur result (i + 1).
Proof.
  intros Hl Hb Hd Hc He. rewrite parse_loop_unfold, Hl, Hb, Hd.
  now rewrite Nat.ltb_irrefl, Hc, He.
Qed.

(** Only value inference can raise: when the value of every "key: value"
    line can be inferred, the loop returns a mapping, whatever the
    indentation and the shape of the lines. *)
Lemma parse_loop_returns (fuel : nat) :
  forall (lines : list str) (cur : nat) (result : dict) (i : nat),
    (forall line, In line lines ->
       _parse_value (snd (split_once (py ": ") (strip line)))
       <> Raise ValueError) ->
    length lines - i < fuel ->
    exists m j, parse_loop fuel lines cur result i = Return (m, j).
Proof.
  induction fuel as [|fuel IH]; intros lines cur result i Hv Hfuel; [lia|].
  rewrite parse_loop_unfold.
  destruct (nth_error lines i) as [line|] eqn:Hline; [|eauto].
  assert (Hi : i < length lines) by (apply nth_error_Some; congruence).
  assert (Hnext : forall cur' result',
             exists m j, parse_loop fuel lines cur' result' (i + 1)
                         = Return (m, j)).
  { intros. apply IH; [exact Hv | lia]. }
  destruct (is_blank line); [apply Hnext|].
  destruct (leading line <? cur); [eauto|].
  destruct (cur <? leading line); [apply Hnext|].
  destruct (contains (py ": ") (strip line)).
  { pose proof (Hv line (nth_error_In _ _ Hline)) as Hraw.
    destruct (split_once (py ": ") (strip line)) as [key raw].
    simpl in Hraw. pose proof (parse_value_ends raw) as Hends.
    destruct (_parse_value raw) as [v|[]|]; try congruence.
    simpl. apply Hnext. }
  destruct (endswith (strip line) (py ":")); [|apply Hnext].
  destruct (IH lines (entry_indent lines (i + 1)) [] (i + 1) Hv)
    as [nested [j Hnested]]; [lia|].
  pose proof (parse_loop_ends fuel lines (entry_indent lines (i + 1)) []
                (i + 1)) as Hpost.
  rewrite Hnested in *. simpl. destruct Hpost as [Hj _]; [lia|].
  apply IH; [exact Hv | lia].
Qed.

(** C6: decoding [stray_lines_text] raises ValueError.  Its second line
    is indented deeper than the block and its third line has no
    recognised shape; both are passed over without an error, as C6
    says (the same text with the value 2 decodes to the partial mapping
    of name and sq), but nothing is returned to the caller, because the
    value of the last line is a superscript digit, which [isdigit()]
    accepts and [int()] refuses. *)
Theorem stray_lines_decode_raises :
  toon_to_dict stray_lines_decimal
  = Return [ [ (py "name", VStr (py "A")); (py "sq", VInt 2) ] ]
  /\ toon_to_dict stray_lines_text = Raise ValueError.
Proof. split; reflexivity. Qed.

(** ** C7: termination of the block parser *)

(** Every call of [_parse_lines] ends: with the fuel of [fuel_for] it
    raises or returns; a returned index is not before the start index,
    is after it when the start index is within bounds, and is the end
    of the input or the index of a non-blank line indented less than
    the reference indent; more fuel changes nothing. *)
Lemma parse_lines_ends (lines : list str) (start : nat) :
  let out := _parse_lines (fuel_for lines start) lines start in
  loop_post lines (entry_indent lines start) start out
  /\ (start < length lines ->
      match out with Return (_, j) => start < j | _ => True end)
  /\ (forall fuel, fuel_for lines start <= fuel ->
                   _parse_lines fuel lines start = out).
Proof.
  cbv zeta. unfold fuel_for. repeat split.
  - apply parse_loop_ends. lia.
  - intros H. apply parse_lines_progress; [lia | exact H].
  - intros fuel H. unfold _parse_lines.
    apply parse_loop_fuel_irrelevant; lia.
Qed.

(** The decoder ends on every text: it returns a dataset or raises. *)
Lemma decode_loop_ends (record_strs : list str) :
  forall records, decode_loop record_strs records <> NoFuel.
Proof.
  induction record_strs as [|c rest IH]; intros records; simpl;
    [discriminate|].
  unfold decode_step.
  destruct (split NL (strip c)) as [|l ls] eqn:E; [simpl; apply IH|].
  pose proof (parse_lines_ends (l :: ls) 0) as [P _]. cbv zeta in P.
  destruct (_parse_lines (fuel_for (l :: ls) 0) (l :: ls) 0)
    as [[m j]| |]; simpl in *; [|discriminate|contradiction].
  destruct m; simpl; apply IH.
Qed.

Lemma toon_to_dict_ends (text : str) : toon_to_dict text <> NoFuel.
Proof. apply decode_loop_ends. Qed.

(** C7: the block parser ends on every list of lines
    ([parse_lines_ends]), but it does not always return a pair: called
    at index 0 on the single line "sq: " followed by a superscript two,
    it raises ValueError, with the fuel of [fuel_for] and with any
    larger amount. *)
Theorem block_parser_raises :
  forall fuel, fuel_for [py "sq: " ++ superscript_two] 0 <= fuel ->
    _parse_lines fuel [py "sq: " ++ superscript_two] 0 = Raise ValueError.
Proof.
  intros fuel H.
  destruct (parse_lines_ends [py "sq: " ++ superscript_two] 0)
    as [_ [_ Hfuel]].
  now rewrite (Hfuel fuel H).
Qed.

Lemma block_parser_raises_witness :
  _parse_lines 2 [py "sq: " ++ superscript_two] 0 = Raise ValueError.
Proof.
  apply (block_parser_raises 2). unfold fuel_for. simpl. lia.
Defined.

(** ** C8: empty dataset and dropped chunks *)

Lemma split_from_nonempty (sep s : str) :
  forall skip, split_from sep s skip <> [].
Proof.
  induction s as [|c s IH]; intros skip; simpl; [discriminate|].
  destruct skip; [|apply IH].
  destruct (match sep with [] => true | _ => _ end); [discriminate|].
  destruct (split_from sep s 0) eqn:E; [now apply IH in E|discriminate].
Qed.

(** One turn of the decoder's loop: the chunk is parsed and its mapping
    is appended unless it is empty. *)
Lemma decode_step_chunk (records : dataset) (record_str : str) :
  decode_step records record_str =
  (record <- parse_chunk record_str ;;
   Return (if nonempty_dict record then records ++ [record] else records)).
Proof.
  unfold decode_step, parse_chunk.
  destruct (split NL (strip record_str)) as [|l ls] eqn:E.
  { exfalso. exact (split_from_nonempty _ _ _ E). }
  destruct (_parse_lines (fuel_for (l :: ls) 0) (l :: ls) 0)
    as [[m j]| |]; simpl; [|reflexivity|reflexivity].
  destruct m; reflexivity.
Qed.

Lemma decode_loop_chunks (record_strs : list str) :
  forall records : dataset,
    decode_loop record_strs records =
    (parsed <- map_outcome parse_chunk record_strs ;;
     Return (records ++ filter nonempty_dict parsed)).
Proof.
  induction record_strs as [|c rest IH]; intros records; simpl.
  - now rewrite List.app_nil_r.
  - rewrite decode_step_chunk.
    destruct (parse_chunk c) as [m| |]; simpl; [|reflexivity|reflexivity].
    rewrite IH.
    destruct (map_outcome parse_chunk rest) as [ms| |]; simpl;
      [|reflexivity|reflexivity].
    destruct m; simpl; [reflexivity|]. now rewrite <- app_assoc.
Qed.

(** C8: the empty dataset is encoded to the empty text and the empty
    text is decoded to the empty dataset; for every text, the decoder
    returns the mappings parsed from the chunks, in chunk order, with
    the empty mappings dropped (and raises when the parse of a chunk
    raises). *)
Theorem decode_drops_empty_chunks :
  dict_to_toon [] = py ""
  /\ toon_to_dict (py "") = Return []
  /\ forall text : str,
       toon_to_dict text =
       (parsed <- map_outcome parse_chunk (split SEPARATOR (strip text)) ;;
        Return (filter nonempty_dict parsed)).
Proof.
  repeat split. intros text. unfold toon_to_dict.
  now rewrite decode_loop_chunks.
Qed.

(** ** C10: a key-only line followed by a line at the same indent *)

(** C10, as stated, fails: the nested call takes its reference indent
    from the line right after the key line, blank or not, and not from
    the next non-blank line.  After the key line a: and a line of three
    spaces, the next non-blank line b: x has the leading count of the
    key line, yet the reference indent of the nested call is 3: the
    nested call returns the empty mapping in front of b: x, which
    becomes a sibling of a.  And in the encoding of the record
    k -> {a -> {}, b -> "x"} the key line of a is followed by the empty
    line of its empty Object, so that the reference indent is 0 and the
    line of b, two spaces deep, is skipped: b is neither a field of the
    nested Object nor a sibling, it is lost. *)
Lemma next_non_blank_line_not_reference :
  (next_non_blank key_space_field 0 = Some (py "b: x")
   /\ leading (py "b: x") = leading (py "a:")
   /\ entry_indent key_space_field 1 = 3
   /\ _parse_lines (fuel_for key_space_field 1) key_space_field 1
      = Return ([], 2)
   /\ _parse_lines (fuel_for key_space_field 0) key_space_field 0
      = Return ([ (py "a", VDict []); (py "b", VStr (py "x")) ], 3)
   /\ toon_to_dict (join NL key_space_field)
      = Return [ [ (py "a", VDict []); (py "b", VStr (py "x")) ] ])
  /\
  (dict_to_toon [nested_empty_then_field]
   = join NL [py "k:"; py "  a:"; py ""; py "  b: x"]
   /\ next_non_blank [py "k:"; py "  a:"; py ""; py "  b: x"] 1
      = Some (py "  b: x")
   /\ leading (py "  b: x") = leading (py "  a:")
   /\ entry_indent [py "k:"; py "  a:"; py ""; py "  b: x"] 2 = 0
   /\ toon_to_dict (dict_to_toon [nested_empty_then_field])
      = Return [ [ (py "k", VDict [ (py "a", VDict []) ]) ] ]).
Proof. repeat split; vm_compute; reflexivity. Qed.

(** C10 (amended): when the loop meets, at its reference indent, a
    key-only line whose next line, blank or not, has the same leading
    count (a non-blank line at the key's indent, or the empty line an
    empty Object is rendered to under a key of a record), the nested
    call takes that count as its reference indent, and the loop returns
    right after the nested call with the key bound to the nested
    mapping: the lines that follow at that indent are fields of the
    nested Object, none is a sibling of the key.  So the record with an
    empty Object under a and the field b -> "x" is decoded, after
    encoding, to a record whose only field a holds the Object with
    b -> "x". *)
Theorem key_line_takes_same_indent_lines (fuel : nat) (lines : list str)
    (i : nat) (line next : str) (result : dict) :
  nth_error lines i = Some line -> is_blank line = false ->
  contains (py ": ") (strip line) = false ->
  endswith (strip line) (py ":") = true ->
  nth_error lines (i + 1) = Some next ->
  leading next = leading line ->
  length lines - i < fuel ->
  (entry_indent lines (i + 1) = leading next
   /\ parse_loop fuel lines (leading line) result i =
      (r <- _parse_lines (fuel_for lines (i + 1)) lines (i + 1) ;;
       Return (dict_set result (removelast (strip line)) (VDict (fst r)),
               snd r)))
  /\ (dict_to_toon [empty_object_then_field]
      = join NL [py "a:"; py ""; py "b: x"]
      /\ toon_to_dict (dict_to_toon [empty_object_then_field])
         = Return [ [ (py "a", VDict [ (py "b", VStr (py "x")) ]) ] ]
      /\ toon_to_dict (dict_to_toon [empty_object_then_field])
         <> Return [empty_object_then_field]).
Proof.
  intros Hline Hblank Hc He Hnext Hind Hfuel.
  assert (Hentry : entry_indent lines (i + 1) = leading next).
  { unfold entry_indent. now rewrite Hnext. }
  split; [split; [exact Hentry|]
         | split; [reflexivity | split; [reflexivity | discriminate]]].
  assert (Hi : i < length lines) by (apply nth_error_Some; congruence).
  destruct fuel as [|fuel]; [lia|].
  rewrite parse_loop_unfold, Hline, Hblank, Nat.ltb_irrefl, Hc, He.
  unfold _parse_lines, fuel_for.
  rewrite (parse_loop_fuel_irrelevant fuel (S (length lines - (i + 1))))
    by lia.
  pose proof (parse_loop_ends (S (length lines - (i + 1))) lines
                (entry_indent lines (i + 1)) [] (i + 1)) as Hpost.
  destruct (parse_loop (S (length lines - (i + 1))) lines
              (entry_indent lines (i + 1)) [] (i + 1))
    as [[nested j]| |]; simpl bind; [|reflexivity|reflexivity].
  simpl in Hpost. destruct Hpost as [Hj Hstop]; [lia|].
  simpl fst. simpl snd.
  destruct fuel as [|fuel]; [lia|].
  rewrite parse_loop_unfold.
  destruct Hstop as [Hnone|[l [Hl [Hlb Hlt]]]].
  - now rewrite Hnone.
  - rewrite Hl, Hlb.
    replace (leading l <? leading line) with true; [reflexivity|].
    symmetry. apply Nat.ltb_lt. rewrite Hentry, Hind in Hlt. exact Hlt.
Qed.

(** The lines of the encoded record of C10: the key a, the empty line of
    its empty Object, the field b. *)
Lemma key_line_takes_same_indent_lines_witness :
  parse_loop 4 [py "a:"; py ""; py "b: x"] 0 [] 0
  = Return ([ (py "a", VDict [ (py "b", VStr (py "x")) ]) ], 3).
Proof.
  refine (proj2 (proj1 (key_line_takes_same_indent_lines 4
            [py "a:"; py ""; py "b: x"] 0 (py "a:") (py "") []
            _ _ _ _ _ _ _))).
  all: try reflexivity.
  all: simpl; lia.
Defined.

(** With a non-blank line right after the key. *)
Lemma key_line_then_field :
  parse_loop 3 [py "a:"; py "b: x"] 0 [] 0
  = Return ([ (py "a", VDict [ (py "b", VStr (py "x")) ]) ], 2).
Proof. reflexivity. Qed.

(** Below the top level the empty line of an empty Object has a smaller
    leading count than the key: the nested call then passes over the
    fields that follow, which are lost. *)
Lemma nested_empty_object_loses_fields :
  toon_to_dict
    (dict_to_toon
       [ [ (py "a", VDict [ (py "b", VDict []); (py "c", VInt 1) ]) ] ])
  = Return [ [ (py "a", VDict [ (py "b", VDict []) ]) ] ].
Proof. reflexivity. Qed.

(** * Further properties of the codec *)

(** ** Stripping, once more *)

Lemma lstrip_idem (s : str) : lstrip (lstrip s) = lstrip s.
Proof.
  induction s as [|c s IH]; [reflexivity|]. simpl.
  destruct (isspace c) eqn:E; [exact IH|]. simpl. now rewrite E.
Qed.

Lemma lstrip_app (a b : str) :
  lstrip (a ++ b) = match lstrip a with [] => lstrip b | _ => lstrip a ++ b end.
Proof.
  induction a as [|c a IH]; [reflexivity|]. simpl.
  destruct (isspace c); [exact IH | reflexivity].
Qed.

Lemma lstrip_all_space (s : str) : all_space s = true -> lstrip s = [].
Proof.
  induction s as [|c s IH]; [reflexivity|]. simpl.
  intros H. apply andb_true_iff in H as [-> H]. auto.
Qed.

Lemma rstrip_idem (s : str) : rstrip (rstrip s) = rstrip s.
Proof. unfold rstrip. now rewrite rev_involutive, lstrip_idem. Qed.

(** A first character that is no whitespace stays in front. *)
Lemma rstrip_cons (c : ascii) (s : str) :
  isspace c = false -> rstrip (c :: s) = c :: rstrip s.
Proof.
  intros Hc. unfold rstrip. simpl rev. rewrite lstrip_app.
  destruct (lstrip (rev s)) as [|x r] eqn:E.
  - simpl. now rewrite Hc.
  - now rewrite rev_app_distr.
Qed.

Lemma lstrip_of_strip (s : str) : lstrip (strip s) = strip s.
Proof.
  unfold strip. pose proof (lstrip_idem s) as H.
  destruct (lstrip s) as [|c u]; [reflexivity|].
  apply lstrip_fixed_head in H.
  rewrite rstrip_cons by exact H. now apply lstrip_head.
Qed.

(** [strip] leaves nothing for a second [strip]. *)
Lemma strip_idem (s : str) : strip (strip s) = strip s.
Proof.
  unfold strip at 1. rewrite lstrip_of_strip. unfold strip.
  apply rstrip_idem.
Qed.

Lemma lstrip_suffix (s : str) : exists pre, s = pre ++ lstrip s.
Proof.
  induction s as [|c s [pre IH]]; [now exists []|]. simpl.
  destruct (isspace c).
  - exists (c :: pre). simpl. now rewrite <- IH.
  - now exists [].
Qed.

Lemma rstrip_prefix (s : str) : exists post, s = rstrip s ++ post.
Proof.
  unfold rstrip. destruct (lstrip_suffix (rev s)) as [pre H].
  exists (rev pre). rewrite <- rev_app_distr, <- H. now rewrite rev_involutive.
Qed.

(** What [strip] returns lies inside the text. *)
Lemma strip_inside (s : str) : exists pre post, s = pre ++ strip s ++ post.
Proof.
  unfold strip. destruct (lstrip_suffix s) as [pre H1].
  destruct (rstrip_prefix (lstrip s)) as [post H2].
  exists pre, post. now rewrite <- H2.
Qed.

Lemma strip_all_space_around (pre t post : str) :
  all_space pre = true -> all_space post = true ->
  strip (pre ++ t ++ post) = strip t.
Proof.
  intros Hpre Hpost. unfold strip.
  rewrite lstrip_app, (lstrip_all_space pre Hpre), lstrip_app.
  destruct (lstrip t) as [|c u] eqn:E.
  - rewrite (lstrip_all_space post Hpost). reflexivity.
  - unfold rstrip. rewrite rev_app_distr, lstrip_app.
    rewrite lstrip_all_space; [reflexivity|].
    unfold all_space in *. rewrite forallb_forall in *.
    intros x Hx. apply Hpost. now apply in_rev.
Qed.

(** ** What value inference returns *)

Lemma decimal_value_acc (s : str) :
  forall acc : Z, (0 <= acc)%Z -> (0 <= fold_left decimal_step s acc)%Z.
Proof.
  induction s as [|c s IH]; intros acc H; simpl; [exact H|].
  apply IH. unfold decimal_step, digit_value. lia.
Qed.

Lemma decimal_value_nonneg (s : str) : (0 <= decimal_value s)%Z.
Proof. apply decimal_value_acc. lia. Qed.

(** The four ways [_parse_value] returns, read back from its result. *)
Lemma parse_value_returns (token : str) (v : value) :
  _parse_value token = Return v ->
  let t := strip token in
  (wrapped t = true
   /\ v = VList (map strip (filter (fun item => nonempty (strip item))
                              (split (py ", ") (interior t)))))
  \/ (wrapped t = false /\ is_bool_token t = true
      /\ v = VBool (str_eqb (lower t) (py "true")))
  \/ (wrapped t = false /\ is_bool_token t = false /\ t <> []
      /\ forallb isdecimal_char t = true /\ v = VInt (decimal_value t))
  \/ (wrapped t = false /\ is_bool_token t = false /\ isdigit t = false
      /\ v = VStr t).
Proof.
  rewrite parse_value_priority. cbv zeta. intros H.
  destruct (wrapped (strip token)).
  { left. split; [reflexivity|]. now inversion H. }
  destruct (is_bool_token (strip token)).
  { right; left. repeat split. now inversion H. }
  destruct (nonempty (strip token) && forallb isdecimal_char (strip token))
    eqn:E.
  { right; right; left. apply andb_true_iff in E as [E1 E2].
    repeat split; auto; [|now inversion H].
    destruct (strip token); [discriminate | discriminate]. }
  destruct (isdigit (strip token)) eqn:D; [discriminate|].
  right; right; right. repeat split. now inversion H.
Qed.

Lemma parse_value_strip_eq (a b : str) :
  strip a = strip b -> _parse_value a = _parse_value b.
Proof. intros H. rewrite !parse_value_unfold. cbv zeta. now rewrite H. Qed.

Lemma contains_false_prefix (sub a b : str) :
  contains sub (a ++ b) = false -> contains sub a = false.
Proof.
  induction a as [|c a IH]; intros H.
  - rewrite contains_nil. destruct sub; [|reflexivity].
    destruct b; discriminate.
  - rewrite <- app_comm_cons in H. apply contains_false_cons in H as [H1 H2].
    rewrite contains_cons, IH, orb_false_r by exact H2.
    destruct (startswith (c :: a) sub) eqn:E; [|reflexivity].
    apply (startswith_app_l _ b) in E. rewrite <- app_comm_cons in E.
    congruence.
Qed.

Lemma contains_false_strip (sub s : str) :
  contains sub s = false -> contains sub (strip s) = false.
Proof.
  intros H. destruct (strip_inside s) as [pre [post E]].
  rewrite E in H. apply contains_false_app_l in H.
  now apply contains_false_prefix in H.
Qed.

Lemma split_head_prefix (sep s : str) :
  exists p ps rest, split_from sep s 0 = p :: ps /\ s = p ++ rest.
Proof.
  induction s as [|c s [p [ps [rest [H1 H2]]]]].
  - exists [], [], []. split; reflexivity.
  - rewrite split_from_unfold. destruct (startswith (c :: s) sep).
    + exists [], (split_from sep s (length sep - 1)), (c :: s). now split.
    + rewrite H1. exists (c :: p), ps, rest. simpl. now rewrite H2 at 1.
Qed.

(** No piece of a split holds the separator. *)
Lemma split_pieces_free (sep s : str) :
  sep <> [] ->
  forall skip, Forall (fun piece => contains sep piece = false)
                 (split_from sep s skip).
Proof.
  intros Hsep. induction s as [|c s IH]; intros skip.
  - simpl. constructor; [|constructor]. destruct sep; [contradiction|].
    reflexivity.
  - destruct skip as [|k]; [|apply IH].
    rewrite split_from_unfold. destruct (startswith (c :: s) sep) eqn:E.
    + constructor; [|apply IH]. destruct sep; [contradiction | reflexivity].
    + destruct (split_head_prefix sep s) as [p [ps [rest [H1 H2]]]].
      pose proof (IH 0) as Hall. rewrite H1 in *. inversion Hall; subst.
      simpl. constructor; [|assumption].
      rewrite contains_cons. rewrite H3, orb_false_r.
      destruct (startswith (c :: p) sep) eqn:E'; [|reflexivity].
      apply (startswith_app_l _ rest) in E'. rewrite <- app_comm_cons in E'.
      congruence.
Qed.

(** ** Extra properties of [_parse_value] *)

(** X6: Whitespace around a token does not change what it is inferred to
    be. *)
Theorem parse_value_ignores_outer_space (pre token post : str) :
  all_space pre = true -> all_space post = true ->
  _parse_value (pre ++ token ++ post) = _parse_value token.
Proof.
  intros Hpre Hpost. apply parse_value_strip_eq.
  now apply strip_all_space_around.
Qed.

Lemma parse_value_ignores_outer_space_witness :
  _parse_value (py "  007 " ++ [ascii_of_nat 9]) = _parse_value (py "007").
Proof.
  apply (parse_value_ignores_outer_space (py "  ") (py "007")
           (py " " ++ [ascii_of_nat 9])); reflexivity.
Defined.

(** X7: An Integer that value inference returns is never negative. *)
Theorem decoded_integer_nonnegative (token : str) (z : Z) :
  _parse_value token = Return (VInt z) -> (0 <= z)%Z.
Proof.
  intros H. apply parse_value_returns in H. cbv zeta in H.
  destruct H as [[_ H]|[[_ [_ H]]|[[_ [_ [_ [_ H]]]]|[_ [_ [_ H]]]]]];
    try discriminate.
  inversion H. apply decimal_value_nonneg.
Qed.

Lemma decoded_integer_nonnegative_witness : (0 <= 7)%Z.
Proof. apply (decoded_integer_nonnegative (py "007") 7). reflexivity. Defined.

(** X8: A negative Integer of at most 4300 digits (beyond which [str]
    raises) is encoded with its minus sign and decoded as a String: the
    sign is no digit. *)
Theorem negative_integer_decodes_as_string (z : Z) (indent : nat) :
  (z < 0)%Z ->
  digits z <= default_max_str_digits ->
  _parse_value (_format_value (VInt z) indent) = Return (VStr (str_int z)).
Proof.
  intros Hz _. destruct z as [|p|p]; try lia.
  cbn [_format_value]. rewrite parse_value_unfold. cbv zeta.
  pose proof (uint_string_decimal (Pos.to_uint p)) as Hd.
  assert (Hs : strip (str_int (Z.neg p)) = str_int (Z.neg p)).
  { apply strip_no_space. cbn [str_int py list_ascii_of_string app forallb].
    apply andb_true_iff. split; [reflexivity|].
    now apply decimal_forall_no_space. }
  rewrite Hs. reflexivity.
Qed.

Lemma negative_integer_decodes_as_string_witness :
  _parse_value (_format_value (VInt (-5)) 0) = Return (VStr (py "-5")).
Proof.
  apply (negative_integer_decodes_as_string (-5) 0);
    [lia | apply Nat.leb_le; reflexivity].
Defined.

Lemma decoded_items_spec (body : str) :
  Forall (fun item => item <> [] /\ strip item = item
                      /\ contains (py ", ") item = false)
    (map strip (filter (fun item => nonempty (strip item))
                  (split (py ", ") body))).
Proof.
  pose proof (split_pieces_free (py ", ") body) as Hfree.
  specialize (Hfree ltac:(discriminate) 0). unfold split.
  induction (split_from (py ", ") body 0) as [|a l IH]; [constructor|].
  inversion Hfree; subst. simpl.
  destruct (nonempty (strip a)) eqn:E; [|now apply IH].
  simpl. constructor; [|now apply IH]. repeat split.
  - destruct (strip a); [discriminate | discriminate].
  - apply strip_idem.
  - now apply contains_false_strip.
Qed.

(** X9: The items of a List that value inference returns are not empty,
    have nothing for [strip] to remove and hold no [", "]. *)
Theorem decoded_list_items (token : str) (items : list str) :
  _parse_value token = Return (VList items) ->
  Forall (fun item => item <> [] /\ strip item = item
                      /\ contains (py ", ") item = false) items.
Proof.
  intros H. apply parse_value_returns in H. cbv zeta in H.
  destruct H as [[_ H]|[[_ [_ H]]|[[_ [_ [_ [_ H]]]]|[_ [_ [_ H]]]]]];
    try discriminate.
  inversion H. apply decoded_items_spec.
Qed.

Lemma decoded_list_items_witness :
  Forall (fun item => item <> [] /\ strip item = item
                      /\ contains (py ", ") item = false)
    [py "a"; py "b c"].
Proof.
  apply (decoded_list_items (py " [a,  , b c , ] ")). reflexivity.
Defined.

Lemma items_split_back (items : list str) :
  Forall (fun item => item <> [] /\ strip item = item
                      /\ contains (py ", ") item = false) items ->
  map strip (filter (fun item => nonempty (strip item))
               (split (py ", ") (join (py ", ") items))) = items.
Proof.
  intros H.
  assert (Hkeep : map strip (filter (fun item => nonempty (strip item)) items)
                  = items).
  { induction H as [|a l [Hne [Hs _]] _ IH]; [reflexivity|]. simpl.
    rewrite Hs. destruct a; [contradiction|]. simpl. now rewrite Hs, IH. }
  destruct items as [|a items]; [reflexivity|].
  rewrite split_join; [exact Hkeep | discriminate | discriminate |].
  eapply Forall_impl; [|exact H]. simpl. intros x [_ [_ Hc]].
  apply piece_ok_two; [exact Hc | discriminate].
Qed.

(** X5: What value inference returns is a fixed point of encoding and
    decoding: rendered again and inferred again, it comes back
    unchanged. *)
Theorem parse_format_idempotent (token : str) (v : value) (indent : nat) :
  _parse_value token = Return v ->
  _parse_value (_format_value v indent) = Return v.
Proof.
  intros H. apply parse_value_returns in H. cbv zeta in H.
  destruct H as [[_ ->]|[[_ [_ ->]]|[[_ [_ [_ [_ ->]]]]|[Hw [Hb [Hd ->]]]]]].
  - change (_format_value (VList ?l) indent)
      with (py "[" ++ join (py ", ") l ++ py "]").
    match goal with
    | |- _parse_value (_ ++ join _ ?l ++ _) = _ =>
        destruct (bracket_token (join (py ", ") l)) as [Hs [Hw Hi]];
        rewrite parse_value_unfold; cbv zeta;
        rewrite Hs, Hw, Hi, items_split_back by apply decoded_items_spec
    end.
    reflexivity.
  - apply parse_value_bool.
  - apply parse_value_int, decimal_value_nonneg.
  - cbn [_format_value]. rewrite parse_value_unfold. cbv zeta.
    now rewrite strip_idem, Hw, Hb, Hd.
Qed.

Lemma parse_format_idempotent_witness :
  _parse_value (_format_value (VList [py "a"; py "b c"]) 0)
  = Return (VList [py "a"; py "b c"]).
Proof.
  apply (parse_format_idempotent (py " [a,  , b c , ] ")). reflexivity.
Defined.

(** ** The block parser ends *)

(** X3: Every call of the block parser ends: with the fuel of
    [fuel_for], [len(lines) - start + 1], or more it raises or returns,
    always the same outcome; a returned index
    is not before the start index, is after it when the start index is
    within bounds, and is the end of the input or the index of a
    non-blank line indented less than the reference indent.  The decoder
    built on it ends on every text. *)
Theorem block_parser_terminates (lines : list str) (start : nat) :
  exists out : outcome (dict * nat),
    out <> NoFuel
    /\ (forall fuel, fuel_for lines start <= fuel ->
                     _parse_lines fuel lines start = out)
    /\ (forall m j, out = Return (m, j) ->
          start <= j
          /\ (start < length lines -> start < j)
          /\ stops_at lines (entry_indent lines start) j)
    /\ (forall text, toon_to_dict text <> NoFuel).
Proof.
  destruct (parse_lines_ends lines start) as [Hpost [Hprog Hfuel]].
  cbv zeta in *.
  exists (_parse_lines (fuel_for lines start) lines start).
  repeat split.
  - intros E. rewrite E in Hpost. exact Hpost.
  - exact Hfuel.
  - rewrite H in Hpost. simpl in Hpost. tauto.
  - intros Hs. specialize (Hprog Hs). now rewrite H in Hprog.
  - rewrite H in Hpost. simpl in Hpost. tauto.
  - apply toon_to_dict_ends.
Qed.

(** ** The decoder raises on superscript digits only *)

Lemma in_strip (c : ascii) (s : str) : In c (strip s) -> In c s.
Proof.
  intros H. destruct (strip_inside s) as [pre [post E]]. rewrite E.
  rewrite !in_app_iff. tauto.
Qed.

Lemma in_split_piece (c : ascii) (sep s : str) :
  forall skip piece,
    In piece (split_from sep s skip) -> In c piece -> In c s.
Proof.
  induction s as [|c0 s IH]; intros skip piece Hp Hc.
  - simpl in Hp. destruct Hp as [<-|[]]. contradiction.
  - destruct skip as [|k]; [|right; eapply IH; eauto].
    rewrite split_from_unfold in Hp.
    destruct (startswith (c0 :: s) sep).
    + destruct Hp as [<-|Hp]; [contradiction|]. right. eapply IH; eauto.
    + destruct (split_from sep s 0) as [|p ps] eqn:E.
      * simpl in Hp. destruct Hp as [<-|[]]. destruct Hc as [->|[]].
        now left.
      * simpl in Hp. destruct Hp as [<-|Hp].
        -- destruct Hc as [->|Hc]; [now left|]. right.
           apply (IH 0 p); [rewrite E; now left | exact Hc].
        -- right. apply (IH 0 piece); [rewrite E; now right | exact Hc].
Qed.

Lemma in_skipn_str (c : ascii) (n : nat) (s : str) :
  In c (skipn n s) -> In c s.
Proof.
  intros H. rewrite <- (firstn_skipn n s). apply in_or_app. now right.
Qed.

Lemma in_split_once (c : ascii) (sep s : str) :
  In c (snd (split_once sep s)) -> In c s.
Proof.
  induction s as [|c0 s IH]; rewrite split_once_unfold.
  - destruct (startswith [] sep); simpl; [|tauto].
    intros H. now apply in_skipn_str in H.
  - destruct (startswith (c0 :: s) sep).
    + simpl snd. apply in_skipn_str.
    + destruct (split_once sep s) as [a b]. simpl in *. auto.
Qed.

Lemma no_superscript_incl (s s' : str) :
  (forall c, In c s' -> In c s) ->
  no_superscript s = true -> no_superscript s' = true.
Proof.
  unfold no_superscript. rewrite !forallb_forall. auto.
Qed.

(** Without superscript digits, whatever passes [isdigit()] is accepted
    by [int()]. *)
Lemma token_never_raises (token : str) :
  no_superscript (strip token) = true ->
  _parse_value token <> Raise ValueError.
Proof.
  intros H. rewrite parse_value_priority. cbv zeta.
  destruct (wrapped (strip token)); [discriminate|].
  destruct (is_bool_token (strip token)); [discriminate|].
  destruct (strip token) as [|c t] eqn:E; [discriminate|].
  cbn [nonempty andb].
  destruct (forallb isdecimal_char (c :: t)) eqn:D; [discriminate|].
  destruct (isdigit (c :: t)) eqn:G; [|discriminate].
  exfalso. unfold isdigit in G. unfold no_superscript in H.
  assert (forallb isdecimal_char (c :: t) = true); [|congruence].
  rewrite forallb_forall in *. intros x Hx.
  specialize (H x Hx). specialize (G x Hx). rewrite G in H. exact H.
Qed.

Lemma chunk_returns (records : dataset) (record_str : str) :
  no_superscript record_str = true ->
  exists records', decode_step records record_str = Return records'.
Proof.
  intros H. unfold decode_step.
  destruct (split NL (strip record_str)) as [|l ls] eqn:E; [eauto|].
  destruct (parse_loop_returns (fuel_for (l :: ls) 0) (l :: ls)
              (entry_indent (l :: ls) 0) [] 0) as [m [j Hm]].
  - intros line Hline. apply token_never_raises.
    apply (no_superscript_incl record_str); [|exact H].
    intros c Hc. apply in_strip, in_split_once, in_strip in Hc.
    apply in_strip. rewrite <- E in Hline. unfold split in Hline.
    eapply in_split_piece; eauto.
  - unfold fuel_for. lia.
  - unfold _parse_lines. rewrite Hm. simpl. destruct m; eauto.
Qed.

Lemma chunks_return (record_strs : list str) :
  forall records,
    Forall (fun c => no_superscript c = true) record_strs ->
    exists data, decode_loop record_strs records = Return data.
Proof.
  induction record_strs as [|c rest IH]; intros records H; simpl; [eauto|].
  inversion H; subst.
  destruct (chunk_returns records c) as [records' ->]; [assumption|].
  simpl. now apply IH.
Qed.

(** X2: On a text of at most 1000 characters, all of them code points
    up to U+00FF and none of them one of the superscript digits U+00B2,
    U+00B3 and U+00B9, the decoder returns a dataset, whatever the
    indentation and the shape of the lines.  (The length keeps every
    numeral within the 4300 digits [int] reads and the nested calls
    within the interpreter's default recursion limit.) *)
Theorem decoder_returns_without_superscripts (text : str) :
  short_text text = true ->
  no_superscript text = true ->
  exists data, toon_to_dict text = Return data.
Proof.
  intros _ H. unfold toon_to_dict. apply chunks_return.
  apply Forall_forall. intros chunk Hchunk.
  apply (no_superscript_incl text); [|exact H].
  intros c Hc. apply in_strip. unfold split in Hchunk.
  eapply in_split_piece; eauto.
Qed.

Lemma decoder_returns_without_superscripts_witness :
  exists data, toon_to_dict stray_lines_decimal = Return data.
Proof.
  apply (decoder_returns_without_superscripts stray_lines_decimal);
    reflexivity.
Defined.

(** ** What the decoder returns *)

Lemma distinct_keys_dict (fields : list (str * value)) :
  distinct_keys (VDict fields)
  = distinct (map fst fields)
    && forallb (fun kv => distinct_keys (snd kv)) fields.
Proof.
  cbn [distinct_keys]. f_equal.
  induction fields as [|[k w] fs IH]; [reflexivity|].
  cbn [forallb snd]. now rewrite <- IH.
Qed.

Lemma dict_set_keys (d : dict) (key : str) (v : value) (x : str) :
  In x (map fst (dict_set d key v)) -> In x (map fst d) \/ x = key.
Proof.
  induction d as [|[k w] d IH]; simpl.
  - intros [H|[]]. now right.
  - destruct (str_eqb k key); simpl; intros [H|H]; auto.
    destruct (IH H); auto.
Qed.

Lemma dict_set_distinct (d : dict) (key : str) (v : value) :
  distinct (map fst d) = true -> distinct (map fst (dict_set d key v)) = true.
Proof.
  induction d as [|[k w] d IH]; [reflexivity|]. simpl.
  intros H. apply andb_true_iff in H as [Hk Hd].
  destruct (str_eqb k key) eqn:E; simpl; [now rewrite Hk, Hd|].
  rewrite IH by exact Hd. rewrite andb_true_r.
  apply negb_true_iff. apply negb_true_iff in Hk.
  destruct (existsb (str_eqb k) (map fst (dict_set d key v))) eqn:X;
    [|reflexivity].
  apply existsb_exists in X as [x [Hx Hkx]]. apply str_eqb_true in Hkx.
  subst x. apply dict_set_keys in Hx as [Hx|Hx].
  - assert (existsb (str_eqb k) (map fst d) = true); [|congruence].
    apply existsb_exists. exists k. split; [exact Hx | apply str_eqb_refl].
  - subst. rewrite str_eqb_refl in E. discriminate.
Qed.

Lemma dict_set_values (d : dict) (key : str) (v : value) :
  forallb (fun kv => distinct_keys (snd kv)) d = true ->
  distinct_keys v = true ->
  forallb (fun kv => distinct_keys (snd kv)) (dict_set d key v) = true.
Proof.
  induction d as [|[k w] d IH]; simpl; intros Hd Hv.
  - now rewrite Hv.
  - apply andb_true_iff in Hd as [Hw Hd].
    destruct (str_eqb k key); simpl.
    + now rewrite Hv, Hd.
    + now rewrite Hw, IH.
Qed.

Lemma dict_set_keeps_distinct (d : dict) (key : str) (v : value) :
  distinct_keys (VDict d) = true -> distinct_keys v = true ->
  distinct_keys (VDict (dict_set d key v)) = true.
Proof.
  rewrite !distinct_keys_dict, !andb_true_iff. intros [H1 H2] Hv.
  split; [now apply dict_set_distinct | now apply dict_set_values].
Qed.

Lemma parse_value_no_object (token : str) (v : value) :
  _parse_value token = Return v -> distinct_keys v = true.
Proof.
  intros H. apply parse_value_returns in H. cbv zeta in H.
  destruct H as [[_ ->]|[[_ [_ ->]]|[[_ [_ [_ [_ ->]]]]|[_ [_ [_ ->]]]]]];
    reflexivity.
Qed.

(** The loop keeps the keys of every Object apart. *)
Lemma parse_loop_distinct (fuel : nat) :
  forall lines cur result i m j,
    distinct_keys (VDict result) = true ->
    parse_loop fuel lines cur result i = Return (m, j) ->
    distinct_keys (VDict m) = true.
Proof.
  induction fuel as [|fuel IH]; intros lines cur result i m j Hr H;
    [discriminate|].
  rewrite parse_loop_unfold in H.
  destruct (nth_error lines i) as [line|]; [|now inversion H; subst].
  destruct (is_blank line); [eapply IH; eauto|].
  destruct (leading line <? cur); [now inversion H; subst|].
  destruct (cur <? leading line); [eapply IH; eauto|].
  destruct (contains (py ": ") (strip line)).
  { destruct (split_once (py ": ") (strip line)) as [key raw].
    destruct (_parse_value raw) as [v| |] eqn:Ev; simpl in H;
      try discriminate.
    eapply IH; [|exact H].
    apply dict_set_keeps_distinct; [exact Hr|].
    eapply parse_value_no_object; eauto. }
  destruct (endswith (strip line) (py ":")); [|eapply IH; eauto].
  destruct (parse_loop fuel lines (entry_indent lines (i + 1)) [] (i + 1))
    as [[nested k]| |] eqn:En; simpl in H; try discriminate.
  eapply IH; [|exact H].
  apply dict_set_keeps_distinct; [exact Hr|].
  eapply IH; [|exact En]. reflexivity.
Qed.

Lemma map_outcome_length {A B} (f : A -> outcome B) (xs : list A)
    (ys : list B) :
  map_outcome f xs = Return ys -> length ys = length xs.
Proof.
  revert ys; induction xs as [|x xs IH]; intros ys H; simpl in H.
  - now inversion H.
  - destruct (f x) as [y| |]; simpl in H; try discriminate.
    destruct (map_outcome f xs) as [zs| |]; simpl in H; try discriminate.
    inversion H; subst. simpl. now rewrite (IH zs).
Qed.

Lemma map_outcome_forall {A B} (f : A -> outcome B) (P : B -> Prop)
    (xs : list A) (ys : list B) :
  (forall x y, f x = Return y -> P y) ->
  map_outcome f xs = Return ys -> Forall P ys.
Proof.
  intros Hf. revert ys; induction xs as [|x xs IH]; intros ys H; simpl in H.
  - inversion H. constructor.
  - destruct (f x) as [y| |] eqn:E; simpl in H; try discriminate.
    destruct (map_outcome f xs) as [zs| |]; simpl in H; try discriminate.
    inversion H; subst. constructor; eauto.
Qed.

(** X4: Every record the decoder returns has at least one field and, at
    every nesting depth, no key twice; there are at most as many records
    as chunks between separators. *)
Theorem decoded_records_invariant (text : str) (data : dataset) :
  toon_to_dict text = Return data ->
  Forall (fun record => record <> []
                        /\ distinct_keys (VDict record) = true) data
  /\ length data <= length (split SEPARATOR (strip text)).
Proof.
  unfold toon_to_dict. rewrite decode_loop_chunks. intros H.
  destruct (map_outcome parse_chunk (split SEPARATOR (strip text)))
    as [parsed| |] eqn:E; simpl in H; try discriminate.
  inversion H; subst. split.
  - assert (Hall : Forall (fun r => distinct_keys (VDict r) = true) parsed).
    { eapply map_outcome_forall; [|exact E]. intros chunk r Hr.
      unfold parse_chunk, _parse_lines in Hr.
      match type of Hr with
      | bind ?c _ = _ => destruct c as [[m j]| |] eqn:Ec
      end; simpl in Hr; try discriminate.
      inversion Hr; subst. eapply parse_loop_distinct; [|exact Ec].
      reflexivity. }
    apply Forall_forall. intros r Hr. apply filter_In in Hr as [Hin Hne].
    rewrite Forall_forall in Hall. split; [|auto].
    destruct r; [discriminate | discriminate].
  - apply map_outcome_length in E. rewrite <- E. apply filter_length_le.
Qed.

Lemma decoded_records_invariant_witness :
  Forall (fun record => record <> []
                        /\ distinct_keys (VDict record) = true)
    [ [ (py "a", VInt 2) ] ]
  /\ 1 <= 2.
Proof.
  apply (decoded_records_invariant
           (py "a: 1" ++ NL ++ py "a: 2" ++ SEPARATOR ++ SEPARATOR)
           [ [ (py "a", VInt 2) ] ]).
  reflexivity.
Defined.

(** ** Chunks and blocks *)

(** X11: Splitting the encoding of a non-empty dataset on the separator gives
    back the blocks of its records, one chunk per record, when no key,
    string or list item holds a line break and no nested Object is
    empty. *)
Theorem chunks_are_blocks (data : dataset) :
  data <> [] -> forallb line_free_record data = true ->
  split SEPARATOR (dict_to_toon data) = map record_block data.
Proof.
  intros Hne H. unfold dict_to_toon. apply split_join.
  - discriminate.
  - destruct data; [contradiction | discriminate].
  - apply Forall_forall. intros b Hb. apply in_map_iff in Hb as [r [<- Hr]].
    rewrite forallb_forall in H.
    apply no_blank_line_piece, line_free_block_no_blank. auto.
Qed.

Lemma chunks_are_blocks_witness :
  split SEPARATOR (dict_to_toon [jenil_nested; []; skills_record])
  = map record_block [jenil_nested; []; skills_record].
Proof.
  apply (chunks_are_blocks [jenil_nested; []; skills_record]);
    [discriminate | reflexivity].
Defined.

Lemma join_app (sep : str) (a b : list str) :
  a <> [] -> b <> [] -> join sep (a ++ b) = join sep a ++ sep ++ join sep b.
Proof.
  intros Ha Hb. induction a as [|x a IH]; [contradiction|].
  destruct a as [|y a].
  - destruct b; [contradiction | reflexivity].
  - change ((x :: y :: a) ++ b) with (x :: y :: (a ++ b)).
    rewrite !join_cons. change (y :: a ++ b) with ((y :: a) ++ b).
    rewrite IH by discriminate. now rewrite <- !app_assoc.
Qed.

(** X12: Encoding two non-empty datasets one after the other is encoding each
    and putting one separator between the two texts. *)
Theorem encode_concatenation (a b : dataset) :
  a <> [] -> b <> [] ->
  dict_to_toon (a ++ b) = dict_to_toon a ++ SEPARATOR ++ dict_to_toon b.
Proof.
  intros Ha Hb. unfold dict_to_toon. rewrite map_app.
  apply join_app; intros E; apply map_eq_nil in E; contradiction.
Qed.

Lemma encode_concatenation_witness :
  dict_to_toon ([jenil_nested] ++ [skills_record])
  = dict_to_toon [jenil_nested] ++ SEPARATOR ++ dict_to_toon [skills_record].
Proof.
  apply (encode_concatenation [jenil_nested] [skills_record]); discriminate.
Defined.

(** ** Round trip of nested Objects *)

Lemma block_lines_cons (k : str) (w : value) (fs : dict) (depth : nat) :
  block_lines ((k, w) :: fs) depth
  = (if is_dict w
     then (spaces depth ++ k ++ py ":") :: value_lines w (S depth)
     else [spaces depth ++ k ++ py ": " ++ _format_value w 0])
    ++ block_lines fs depth.
Proof. reflexivity. Qed.

Lemma value_ok_dict (fields : dict) :
  value_ok (VDict fields)
  = nonempty_dict fields && distinct (map fst fields)
    && forallb nested_field_ok fields.
Proof.
  cbn [value_ok]. f_equal.
  induction fields as [|[k w] fs IH]; [reflexivity|].
  cbn [forallb]. now rewrite <- IH.
Qed.

(** The loop on a list of lines with lines in front of it. *)
Lemma parse_loop_shift (fuel : nat) :
  forall (pre rest : list str) (cur : nat) (acc : dict) (k : nat),
    parse_loop fuel (pre ++ rest) cur acc (length pre + k)
    = shift (length pre) (parse_loop fuel rest cur acc k).
Proof.
  induction fuel as [|fuel IH]; intros pre rest cur acc k; [reflexivity|].
  rewrite !parse_loop_unfold.
  assert (Hnth : forall n, nth_error (pre ++ rest) (length pre + n)
                           = nth_error rest n).
  { intros n. rewrite nth_error_app2 by lia. f_equal. lia. }
  assert (Hentry : entry_indent (pre ++ rest) (length pre + k + 1)
                   = entry_indent rest (k + 1)).
  { unfold entry_indent.
    replace (length pre + k + 1) with (length pre + (k + 1)) by lia.
    now rewrite Hnth. }
  rewrite Hnth, Hentry.
  replace (length pre + k + 1) with (length pre + (k + 1)) by lia.
  destruct (nth_error rest k) as [line|]; [|reflexivity].
  destruct (is_blank line); [apply IH|].
  destruct (leading line <? cur); [reflexivity|].
  destruct (cur <? leading line); [apply IH|].
  destruct (contains (py ": ") (strip line)).
  { destruct (split_once (py ": ") (strip line)) as [key raw].
    destruct (_parse_value raw); simpl; auto. }
  destruct (endswith (strip line) (py ":")); [|apply IH].
  rewrite IH.
  destruct (parse_loop fuel rest (entry_indent rest (k + 1)) [] (k + 1))
    as [[nested j]| |]; simpl; auto.
Qed.

Lemma parse_loop_after (fuel : nat) (pre rest : list str) (cur : nat)
    (acc : dict) :
  parse_loop fuel (pre ++ rest) cur acc (length pre)
  = shift (length pre) (parse_loop fuel rest cur acc 0).
Proof.
  rewrite <- (parse_loop_shift fuel pre rest cur acc 0).
  now rewrite Nat.add_0_r.
Qed.

Lemma spaces_length (depth : nat) : length (spaces depth) = 2 * depth.
Proof. induction depth as [|n IH]; simpl; lia. Qed.

Lemma spaces_all_space (depth : nat) : all_space (spaces depth) = true.
Proof. induction depth as [|n IH]; [reflexivity|]. simpl. exact IH. Qed.

Lemma spaces_snoc (depth : nat) :
  spaces depth ++ py "  " = spaces (S depth).
Proof.
  induction depth as [|n IH]; [reflexivity|].
  change (spaces (S n)) with (py "  " ++ spaces n) at 1.
  rewrite <- app_assoc, IH. reflexivity.
Qed.

Lemma strip_indented (depth : nat) (x : str) :
  strip (spaces depth ++ x) = strip x.
Proof.
  rewrite <- (List.app_nil_r x) at 1.
  apply strip_all_space_around; [apply spaces_all_space | reflexivity].
Qed.

Lemma leading_indented (depth : nat) (x : str) :
  lstrip x = x -> leading (spaces depth ++ x) = 2 * depth.
Proof.
  intros H. unfold leading.
  rewrite lstrip_app, (lstrip_all_space _ (spaces_all_space depth)), H.
  rewrite length_app, spaces_length. lia.
Qed.

Lemma rstrip_indented (depth : nat) (x : str) :
  x <> [] -> rstrip x = x -> rstrip (spaces depth ++ x) = spaces depth ++ x.
Proof. intros. now apply rstrip_app_nonempty. Qed.

Lemma contains_two_snoc (c1 c2 : ascii) (a : str) :
  c1 <> c2 -> contains [c1; c2] a = false ->
  contains [c1; c2] (a ++ [c1]) = false.
Proof.
  intros Hne. induction a as [|x a IH]; intros H.
  - simpl. rewrite orb_false_r. cbn [startswith].
    destruct (ascii_eqb c1 c1); reflexivity.
  - apply contains_false_cons in H as [H1 H2].
    rewrite <- app_comm_cons, contains_cons, IH, orb_false_r by exact H2.
    destruct a as [|y a].
    + cbn [app startswith]. destruct (ascii_eqb c1 x); [|reflexivity].
      cbn [andb]. replace (ascii_eqb c2 c1) with false; [reflexivity|].
      symmetry. apply ascii_eqb_false. congruence.
    + cbn [app startswith] in *. now rewrite startswith_nil in *.
Qed.

(** The key line of an Object field. *)
Lemma key_line_spec (depth : nat) (k : str) :
  key_ok k = true ->
  let line := spaces depth ++ k ++ py ":" in
  is_blank line = false /\ leading line = 2 * depth
  /\ strip line = k ++ py ":"
  /\ contains (py ": ") (k ++ py ":") = false
  /\ endswith (k ++ py ":") (py ":") = true
  /\ removelast (k ++ py ":") = k
  /\ line <> [] /\ ~ In newline line /\ rstrip line = line.
Proof.
  intros Hk. cbv zeta.
  assert (Hkk := Hk). apply key_ok_spec in Hk as [Hl [Hn _]].
  unfold key_ok in Hkk. rewrite !andb_true_iff, !negb_true_iff in Hkk.
  destruct Hkk as [_ Hc].
  assert (Hs : strip (k ++ py ":") = k ++ py ":").
  { apply strip_fixed. split.
    - apply lstrip_fixed_app; [exact Hl | reflexivity].
    - apply rstrip_app_nonempty; [discriminate | reflexivity]. }
  assert (Hne : k ++ py ":" <> []).
  { intros E. apply app_eq_nil in E as [_ E]. discriminate. }
  repeat split.
  - unfold is_blank. rewrite strip_indented, Hs.
    destruct (k ++ py ":"); [contradiction | reflexivity].
  - apply leading_indented. apply strip_fixed in Hs. tauto.
  - now rewrite strip_indented.
  - apply (contains_two_snoc ":" " " k); [discriminate | exact Hc].
  - unfold endswith. rewrite rev_app_distr. apply startswith_app.
  - apply removelast_last.
  - intros E. apply app_eq_nil in E as [_ E]. contradiction.
  - rewrite !in_app_iff. intros [H|[H|H]].
    + now apply spaces_no_newline in H.
    + contradiction.
    + simpl in H. destruct H as [H|[]]. discriminate.
  - apply rstrip_indented; [exact Hne|]. apply strip_fixed in Hs. tauto.
Qed.

(** The line of a scalar or list field at some depth. *)
Lemma scalar_line_spec (depth : nat) (k : str) (w : value) :
  field_ok (k, w) = true ->
  let line := spaces depth ++ k ++ py ": " ++ _format_value w 0 in
  is_blank line = false /\ leading line = 2 * depth
  /\ strip line = field_line (k, w)
  /\ line <> [] /\ ~ In newline line /\ rstrip line = line.
Proof.
  intros Hf. cbv zeta.
  destruct (field_line_spec (k, w) Hf) as [Hne [Hs [Hn _]]].
  unfold field_line in *. cbn [fst snd] in *.
  repeat split.
  - unfold is_blank. rewrite strip_indented, Hs.
    destruct (k ++ py ": " ++ _format_value w 0); [contradiction|reflexivity].
  - apply leading_indented. apply strip_fixed in Hs. tauto.
  - now rewrite strip_indented.
  - intros E. apply app_eq_nil in E as [_ E]. contradiction.
  - rewrite in_app_iff. intros [H|H]; [|contradiction].
    now apply spaces_no_newline in H.
  - apply rstrip_indented; [exact Hne|]. apply strip_fixed in Hs. tauto.
Qed.

Lemma value_ok_scalar (w : value) :
  is_dict w = false -> value_ok w = scalar_ok w.
Proof. destruct w; simpl; intros H; reflexivity || discriminate. Qed.

(** The first line of the fields of a non-empty Object is not blank and
    sits at the Object's depth. *)
Lemma block_first_line (fs : dict) (depth : nat) :
  fs <> [] -> forallb nested_field_ok fs = true ->
  exists l rest, block_lines fs depth = l :: rest
                 /\ is_blank l = false /\ leading l = 2 * depth.
Proof.
  destruct fs as [|[k w] fs]; [contradiction|]. intros _ H.
  cbn [forallb] in H. apply andb_true_iff in H as [Hf _].
  unfold nested_field_ok in Hf. cbn [fst snd] in Hf.
  apply andb_true_iff in Hf as [Hk Hw].
  rewrite block_lines_cons. destruct (is_dict w) eqn:D.
  - destruct (key_line_spec depth k Hk) as [Hb [Hl _]].
    eexists _, _. split; [reflexivity | auto].
  - rewrite value_ok_scalar in Hw by exact D.
    assert (Hf : field_ok (k, w) = true).
    { unfold field_ok. cbn [fst snd]. now rewrite Hk, Hw. }
    destruct (scalar_line_spec depth k w Hf) as [Hb [Hl _]].
    eexists _, _. split; [reflexivity | auto].
Qed.

Lemma stops_block_after (fs : dict) (depth : nat) (post : list str) :
  forallb nested_field_ok fs = true ->
  stops_block (2 * depth) post ->
  stops_block (2 * S depth) (block_lines fs depth ++ post).
Proof.
  intros Hok Hpost. destruct fs as [|kv fs].
  - change (block_lines [] depth) with (@nil str). simpl app.
    destruct post as [|l post]; [exact I|]. simpl in *.
    destruct Hpost. split; [assumption | lia].
  - destruct (block_first_line (kv :: fs) depth) as [l [rest [E [Hb Hl]]]];
      [discriminate | exact Hok |].
    rewrite E. simpl. split; [exact Hb | lia].
Qed.

Lemma nodup_step (acc : dict) (k : str) (w : value) (fs : dict) :
  NoDup (map fst (acc ++ (k, w) :: fs)) ->
  ~ In k (map fst acc) /\ NoDup (map fst ((acc ++ [(k, w)]) ++ fs)).
Proof.
  intros H. split.
  - rewrite map_app in H. simpl in H. apply NoDup_remove_2 in H.
    intros Hin. apply H. apply in_app_iff. now left.
  - now rewrite <- app_assoc.
Qed.

(** The fields of an Object are read back when the fields of its nested
    Objects are. *)
Lemma fields_parse_back_step (fs : dict) :
  Forall (fun kv => parses_back (snd kv)) fs -> fields_parse_back fs.
Proof.
  induction fs as [|[k w] fs IH]; intros Hall depth acc post fuel Hok Hnd
    Hpost Hfuel.
  - change (block_lines [] depth) with (@nil str) in *. simpl app.
    destruct fuel as [|fuel]; [simpl in Hfuel; lia|].
    rewrite parse_loop_unfold, List.app_nil_r.
    destruct post as [|l post]; [reflexivity|]. unfold stops_block in Hpost.
    destruct Hpost as [Hb Hl]. cbn [nth_error]. rewrite Hb.
    apply Nat.ltb_lt in Hl. now rewrite Hl.
  - inversion Hall as [|? ? Hw Hrest]; subst. cbn [snd] in Hw.
    specialize (IH Hrest).
    cbn [forallb] in Hok. apply andb_true_iff in Hok as [Hf Hoks].
    unfold nested_field_ok in Hf. cbn [fst snd] in Hf.
    apply andb_true_iff in Hf as [Hk Hvw].
    destruct (nodup_step acc k w fs Hnd) as [Hfresh Hnd'].
    destruct fuel as [|fuel]; [lia|].
    rewrite block_lines_cons in *.
    destruct (is_dict w) eqn:D.
    + destruct w as [| | | |fsw]; try discriminate.
      change (value_lines (VDict fsw) (S depth))
        with (block_lines fsw (S depth)) in *.
      rewrite value_ok_dict in Hvw.
      apply andb_true_iff in Hvw as [Hvw Hfsw].
      apply andb_true_iff in Hvw as [Hne Hdist].
      destruct (key_line_spec depth k Hk)
        as [Hb [Hl [Hs [Hc [He [Hr _]]]]]].
      set (header := spaces depth ++ k ++ py ":") in *.
      set (N := block_lines fsw (S depth)) in *.
      set (B := block_lines fs depth) in *.
      change (((header :: N) ++ B) ++ post)
        with (header :: (N ++ B) ++ post).
      rewrite parse_loop_unfold. cbn [nth_error].
      rewrite Hb, Hl, Nat.ltb_irrefl, Hs, Hc, He, Hr.
      assert (Hfirst : entry_indent (header :: (N ++ B) ++ post) (0 + 1)
                       = 2 * S depth).
      { destruct (block_first_line fsw (S depth)) as [l [rest [E [_ Hll]]]];
          [destruct fsw; [discriminate | discriminate] | exact Hfsw |].
        unfold entry_indent, N. rewrite E. exact Hll. }
      rewrite Hfirst.
      change (header :: (N ++ B) ++ post)
        with ([header] ++ ((N ++ B) ++ post)) at 1.
      change (0 + 1) with (length [header]).
      rewrite parse_loop_after, <- app_assoc.
      assert (HN : parse_loop fuel (N ++ B ++ post) (2 * S depth) [] 0
                   = Return (fsw, length N)).
      { apply (Hw fsw eq_refl Hdist (S depth) [] (B ++ post) fuel).
        - exact Hfsw.
        - simpl. now apply distinct_NoDup.
        - now apply stops_block_after.
        - simpl in Hfuel. rewrite length_app in Hfuel. fold N. unfold str in *. lia. }
      rewrite HN. cbn [shift bind fst snd].
      rewrite dict_set_fresh by exact Hfresh.
      change (header :: N ++ B ++ post) with ((header :: N) ++ (B ++ post)).
      replace (length [header] + length N) with (length (header :: N))
        by reflexivity.
      rewrite parse_loop_after.
      assert (HB : parse_loop fuel (B ++ post) (2 * depth)
                     (acc ++ [(k, VDict fsw)]) 0
                   = Return ((acc ++ [(k, VDict fsw)]) ++ fs, length B)).
      { apply IH; auto. simpl in Hfuel. rewrite length_app in Hfuel.
        fold B. unfold str in *. lia. }
      rewrite HB. cbn [shift]. rewrite <- app_assoc. cbn [app].
      do 2 f_equal. cbn [length]. now rewrite length_app.
    + rewrite value_ok_scalar in Hvw by exact D.
      assert (Hf : field_ok (k, w) = true).
      { unfold field_ok. cbn [fst snd]. now rewrite Hk, Hvw. }
      destruct (scalar_line_spec depth k w Hf) as [Hb [Hl [Hs _]]].
      destruct (field_line_spec (k, w) Hf) as [_ [_ [_ [Hc Hsplit]]]].
      cbn [fst snd] in Hsplit.
      set (line := spaces depth ++ k ++ py ": " ++ _format_value w 0) in *.
      set (B := block_lines fs depth) in *.
      change (([line] ++ B) ++ post) with (line :: B ++ post).
      rewrite parse_loop_unfold. cbn [nth_error].
      rewrite Hb, Hl, Nat.ltb_irrefl, Hs, Hc, Hsplit.
      rewrite parse_value_format by exact Hvw. cbn [bind].
      rewrite dict_set_fresh by exact Hfresh.
      change (line :: B ++ post) with ([line] ++ (B ++ post)).
      change (0 + 1) with (length [line]).
      rewrite parse_loop_after.
      assert (HB : parse_loop fuel (B ++ post) (2 * depth)
                     (acc ++ [(k, w)]) 0
                   = Return ((acc ++ [(k, w)]) ++ fs, length B)).
      { apply IH; auto. simpl in Hfuel. fold B. unfold str in *. lia. }
      rewrite HB. cbn [shift]. rewrite <- app_assoc. reflexivity.
Qed.

Lemma all_values_parse_back (v : value) : parses_back v.
Proof.
  induction v as [s|z|b|items|fields IH] using value_nested_ind;
    intros fs E Hd; try discriminate.
  inversion E; subst. now apply fields_parse_back_step.
Qed.

Lemma nested_ok_fields (fsw : dict) :
  value_ok (VDict fsw) = true ->
  fsw <> [] /\ distinct (map fst fsw) = true
  /\ forallb nested_field_ok fsw = true.
Proof.
  rewrite value_ok_dict, !andb_true_iff. intros [[H1 H2] H3].
  repeat split; auto. destruct fsw; [discriminate | discriminate].
Qed.

Lemma field_ok_parts (k : str) (w : value) (fs : dict) :
  forallb nested_field_ok ((k, w) :: fs) = true ->
  key_ok k = true /\ value_ok w = true /\ forallb nested_field_ok fs = true.
Proof.
  cbn [forallb]. unfold nested_field_ok at 1. cbn [fst snd].
  rewrite !andb_true_iff. tauto.
Qed.

Lemma block_lines_good_step (fs : dict) :
  Forall (fun kv => lines_good (snd kv)) fs ->
  forallb nested_field_ok fs = true ->
  forall depth, Forall good_line (block_lines fs depth).
Proof.
  induction fs as [|[k w] fs IH]; intros Hall Hok depth; [constructor|].
  inversion Hall as [|? ? Hw Hrest]; subst. cbn [snd] in Hw.
  apply field_ok_parts in Hok as [Hk [Hvw Hoks]].
  rewrite block_lines_cons. apply Forall_app. split; [|now apply IH].
  destruct (is_dict w) eqn:D.
  - destruct w as [| | | |fsw]; try discriminate.
    apply nested_ok_fields in Hvw as [_ [_ Hfsw]].
    constructor; [|now apply (Hw fsw eq_refl Hfsw)].
    destruct (key_line_spec depth k Hk) as [_ [_ [_ [_ [_ [_ H]]]]]].
    exact H.
  - rewrite value_ok_scalar in Hvw by exact D.
    assert (Hf : field_ok (k, w) = true).
    { unfold field_ok. cbn [fst snd]. now rewrite Hk, Hvw. }
    destruct (scalar_line_spec depth k w Hf) as [_ [_ [_ H]]].
    constructor; [exact H | constructor].
Qed.

Lemma all_lines_good (v : value) : lines_good v.
Proof.
  induction v as [s|z|b|items|fields IH] using value_nested_ind;
    intros fs E Hok; try discriminate.
  inversion E; subst. now apply block_lines_good_step.
Qed.

Lemma block_lines_nonempty (fs : dict) (depth : nat) :
  fs <> [] -> block_lines fs depth <> [].
Proof.
  destruct fs as [|[k w] fs]; [contradiction|]. intros _.
  rewrite block_lines_cons. destruct (is_dict w); discriminate.
Qed.

Lemma depth_lines_nonempty (fs : dict) (depth : nat) :
  fs <> [] -> flat_map (depth_field_lines depth) fs <> [].
Proof.
  destruct fs as [|[k w] fs]; [contradiction|]. intros _.
  cbn [flat_map depth_field_lines]. destruct (is_dict w); discriminate.
Qed.

Lemma join_one_more (sep a : str) (parts : list str) :
  parts <> [] -> join sep (a :: parts) = a ++ sep ++ join sep parts.
Proof. destruct parts; [contradiction | reflexivity]. Qed.

Lemma format_scalar_indent (w : value) (i : nat) :
  is_dict w = false -> _format_value w i = _format_value w 0.
Proof. destruct w; simpl; intros H; reflexivity || discriminate. Qed.

(** Joining the pieces of the fields gives the same text as joining
    their lines. *)
Lemma render_lines_step (fs : dict) :
  Forall (fun kv => renders_lines (snd kv)) fs ->
  forallb nested_field_ok fs = true ->
  forall depth,
    join NL (flat_map (depth_field_lines depth) fs)
    = join NL (block_lines fs depth).
Proof.
  induction fs as [|[k w] fs IH]; intros Hall Hok depth; [reflexivity|].
  inversion Hall as [|? ? Hw Hrest]; subst. cbn [snd] in Hw.
  apply field_ok_parts in Hok as [Hk [Hvw Hoks]].
  specialize (IH Hrest Hoks depth).
  rewrite block_lines_cons. cbn [flat_map depth_field_lines].
  assert (Hhead :
    join NL (if is_dict w
             then [spaces depth ++ k ++ py ":"; _format_value w depth]
             else [spaces depth ++ k ++ py ": " ++ _format_value w depth])
    = join NL (if is_dict w
               then (spaces depth ++ k ++ py ":") :: value_lines w (S depth)
               else [spaces depth ++ k ++ py ": " ++ _format_value w 0])).
  { destruct (is_dict w) eqn:D.
    - destruct w as [| | | |fsw]; try discriminate.
      apply nested_ok_fields in Hvw as [Hne [_ Hfsw]].
      rewrite (Hw fsw eq_refl Hfsw depth).
      change (value_lines (VDict fsw) (S depth))
        with (block_lines fsw (S depth)).
      rewrite (join_one_more NL _ (block_lines fsw (S depth)))
        by now apply block_lines_nonempty.
      reflexivity.
    - now rewrite (format_scalar_indent w depth D). }
  destruct fs as [|kv fs].
  - change (block_lines [] depth) with (@nil str).
    cbn [flat_map]. rewrite !List.app_nil_r. exact Hhead.
  - rewrite !join_app.
    + now rewrite Hhead, IH.
    + destruct (is_dict w); discriminate.
    + apply block_lines_nonempty. discriminate.
    + destruct (is_dict w); discriminate.
    + apply depth_lines_nonempty. discriminate.
Qed.

Lemma nested_lines_at_depth (indent : nat) (kv : str * value) :
  nested_field_lines indent kv = depth_field_lines (S indent) kv.
Proof.
  destruct kv as [k w]. unfold nested_field_lines, depth_field_lines.
  rewrite !app_assoc, spaces_snoc. reflexivity.
Qed.

Lemma all_values_render_lines (v : value) : renders_lines v.
Proof.
  induction v as [s|z|b|items|fields IH] using value_nested_ind;
    intros fs E Hok indent; try discriminate.
  inversion E; subst. rewrite format_dict_lines.
  rewrite (flat_map_ext _ _ (nested_lines_at_depth indent)).
  now apply render_lines_step.
Qed.

(** The block of a record is the join of its lines. *)
Lemma record_block_lines (record : dict) :
  forallb nested_field_ok record = true ->
  record_block record = join NL (block_lines record 0).
Proof.
  intros H. unfold record_block, record_lines.
  rewrite <- (render_lines_step record); [reflexivity | | exact H].
  apply Forall_forall. intros kv _. apply all_values_render_lines.
Qed.

Lemma rstrip_join_lines (sep : str) (parts : list str) :
  Forall (fun p => p <> [] /\ rstrip p = p) parts ->
  rstrip (join sep parts) = join sep parts.
Proof.
  induction parts as [|a parts IH]; [reflexivity|]. intros H.
  inversion H as [|? ? [Hne Hs] Hrest]; subst.
  destruct parts as [|b parts]; [exact Hs|].
  rewrite join_cons.
  assert (Hj : join sep (b :: parts) <> []).
  { apply join_nonempty; [discriminate|].
    eapply Forall_impl; [|exact Hrest]. simpl. tauto. }
  apply rstrip_app_nonempty.
  - intros E. apply app_eq_nil in E. tauto.
  - apply rstrip_app_nonempty; [exact Hj | now apply IH].
Qed.

Lemma leading_zero_fixed (l : str) : leading l = 0 -> lstrip l = l.
Proof.
  unfold leading. intros H. apply lstrip_same_length.
  pose proof (lstrip_length l). lia.
Qed.

(** The block of a well-formed record, nested Objects included. *)
Lemma nested_block_spec (record : dict) :
  nested_record_ok record = true ->
  let block := record_block record in
  block <> [] /\ strip block = block /\ no_blank_line block
  /\ split NL block = block_lines record 0.
Proof.
  intros H. cbv zeta. apply nested_ok_fields in H as [Hne [Hd Hok]].
  rewrite record_block_lines by exact Hok.
  pose proof (all_lines_good (VDict record) record eq_refl Hok 0) as Hgood.
  destruct (block_first_line record 0 Hne Hok) as [l [rest [E [Hb Hl]]]].
  assert (Hplain : Forall (fun l => l <> [] /\ ~ In newline l)
                     (block_lines record 0)).
  { eapply Forall_impl; [|exact Hgood]. unfold good_line. tauto. }
  repeat split.
  - apply join_nonempty; [now apply block_lines_nonempty|].
    eapply Forall_impl; [|exact Hgood]. unfold good_line. tauto.
  - apply strip_fixed. split.
    + rewrite E in *. inversion Hgood as [|? ? [Hlne _] _]; subst.
      apply leading_zero_fixed in Hl.
      destruct rest; [exact Hl|]. rewrite join_cons.
      now apply lstrip_app_nonempty.
    + apply rstrip_join_lines.
      eapply Forall_impl; [|exact Hgood]. unfold good_line. tauto.
  - now apply joined_lines_no_blank.
  - now apply joined_lines_no_blank.
  - now apply joined_lines_no_blank.
  - apply split_join; [discriminate | now apply block_lines_nonempty |].
    eapply Forall_impl; [|exact Hplain]. simpl. intros x [_ Hx].
    now apply piece_ok_char.
Qed.

Lemma decode_step_nested (records : dataset) (record : dict) :
  nested_record_ok record = true ->
  decode_step records (record_block record) = Return (records ++ [record]).
Proof.
  intros H. destruct (nested_block_spec record H) as [_ [Hs [_ Hsplit]]].
  apply nested_ok_fields in H as [Hne [Hd Hok]].
  destruct (block_first_line record 0 Hne Hok) as [l [rest [E [Hb Hl]]]].
  unfold decode_step. rewrite Hs, Hsplit, E.
  unfold _parse_lines, entry_indent. cbn [nth_error]. rewrite Hl, <- E.
  pose proof (all_values_parse_back (VDict record) record eq_refl Hd 0 [] []
                (fuel_for (block_lines record 0) 0) Hok) as Hp.
  rewrite List.app_nil_r in Hp. rewrite Hp.
  - cbn [bind fst app]. destruct record; [contradiction | reflexivity].
  - simpl. now apply distinct_NoDup.
  - exact I.
  - unfold fuel_for. lia.
Qed.

Lemma decode_loop_nested (data : dataset) :
  forall records : dataset,
    forallb nested_record_ok data = true ->
    decode_loop (map record_block data) records = Return (records ++ data).
Proof.
  induction data as [|record data IH]; intros records H; simpl.
  - now rewrite List.app_nil_r.
  - cbn [forallb] in H. apply andb_true_iff in H as [Hr Hd].
    rewrite decode_step_nested by exact Hr. simpl bind.
    rewrite IH by exact Hd. now rewrite <- app_assoc.
Qed.

Lemma round_trip_core (data : dataset) :
  forallb nested_record_ok data = true ->
  toon_to_dict (dict_to_toon data) = Return data.
Proof.
  intros H. destruct data as [|r data]; [reflexivity|].
  assert (Hblocks : Forall (fun b => b <> [] /\ strip b = b
                                     /\ piece_ok SEPARATOR b)
                      (map record_block (r :: data))).
  { apply Forall_forall. intros b Hb. apply in_map_iff in Hb as [x [<- Hx]].
    rewrite forallb_forall in H.
    destruct (nested_block_spec x (H x Hx)) as [H1 [H2 [H3 _]]].
    repeat split; auto. now apply no_blank_line_piece. }
  unfold toon_to_dict, dict_to_toon.
  rewrite strip_join
    by (eapply Forall_impl; [|exact Hblocks]; simpl; tauto).
  rewrite split_join.
  - apply (decode_loop_nested (r :: data) [] H).
  - discriminate.
  - discriminate.
  - eapply Forall_impl; [|exact Hblocks]. simpl. tauto.
Qed.

(** X1: Decoding the encoding of a dataset returns the dataset, nested
    Objects included, when every record and every nested Object has at
    least one field and distinct well-formed keys, every scalar and
    list value is well formed (an Integer is not negative and has at
    most 4300 digits), and Objects are nested at most 500 deep, which
    keeps the recursion of encoder and decoder within the interpreter's
    default limit. *)
Theorem nested_round_trip (data : dataset) :
  forallb nested_record_ok data = true ->
  forallb shallow data = true ->
  toon_to_dict (dict_to_toon data) = Return data.
Proof. intros H _. now apply round_trip_core. Qed.

Lemma nested_round_trip_witness :
  toon_to_dict (dict_to_toon [nested_sample; skills_record])
  = Return [nested_sample; skills_record].
Proof.
  apply (nested_round_trip [nested_sample; skills_record]); reflexivity.
Defined.

(** Each nesting level is two more spaces: the first line of the fields
    of a well-formed Object [depth] levels deep begins with exactly
    [2 * depth] whitespace characters. *)
Lemma nested_indent_is_two_per_level (fs : dict) (depth : nat) :
  fs <> [] -> forallb nested_field_ok fs = true ->
  entry_indent (block_lines fs depth) 0 = 2 * depth.
Proof.
  intros Hne Hok.
  destruct (block_first_line fs depth Hne Hok) as [l [rest [E [_ Hl]]]].
  unfold entry_indent. now rewrite E.
Qed.

(** ** Edge cases of the codec *)

Lemma strip_key_colon_space (k : str) :
  lstrip k = k -> strip (k ++ py ": ") = k ++ py ":".
Proof.
  intros Hl. unfold strip.
  rewrite lstrip_fixed_app by (exact Hl || reflexivity).
  unfold rstrip. rewrite rev_app_distr.
  change (rev (py ": ") ++ rev k) with (" "%char :: ":"%char :: rev k).
  change (lstrip (" "%char :: ":"%char :: rev k)) with (":"%char :: rev k).
  cbn [rev]. now rewrite rev_involutive.
Qed.

(** X10: An empty String value is lost: its line ends in ": ", [strip] turns
    that into ":", and the decoder reads the field as an empty Object. *)
Theorem empty_string_decodes_as_empty_object (k : str) :
  key_ok k = true ->
  toon_to_dict (dict_to_toon [[(k, VStr [])]]) = Return [[(k, VDict [])]].
Proof.
  intros Hk. destruct (key_line_spec 0 k Hk)
    as [Hb [Hl [Hs [Hc [He [Hr [Hne [Hn _]]]]]]]].
  apply key_ok_spec in Hk as [Hlk _].
  change (spaces 0 ++ k ++ py ":") with (k ++ py ":") in *.
  unfold toon_to_dict.
  change (dict_to_toon [[(k, VStr [])]]) with (k ++ py ": ").
  rewrite strip_key_colon_space by exact Hlk.
  rewrite split_none.
  2:{ change SEPARATOR with (newline :: skipn 1 SEPARATOR).
      now apply contains_absent_char. }
  cbn [decode_loop]. unfold decode_step. rewrite Hs.
  rewrite split_none by now apply contains_absent_char.
  unfold _parse_lines, fuel_for, entry_indent. cbn [nth_error length Nat.sub].
  rewrite Hl. cbn [Nat.mul].
  rewrite parse_loop_unfold. cbn [nth_error].
  rewrite Hb, Hl, Nat.ltb_irrefl, Hs, Hc, He, Hr. reflexivity.
Qed.

Lemma empty_string_decodes_as_empty_object_witness :
  toon_to_dict (dict_to_toon [[(py "note", VStr [])]])
  = Return [[(py "note", VDict [])]].
Proof.
  apply (empty_string_decodes_as_empty_object (py "note")). reflexivity.
Defined.

(** X13: Whitespace before and after the whole text does not change what is
    decoded. *)
Theorem decoder_ignores_outer_space (pre text post : str) :
  all_space pre = true -> all_space post = true ->
  toon_to_dict (pre ++ text ++ post) = toon_to_dict text.
Proof.
  intros Hpre Hpost. unfold toon_to_dict.
  now rewrite strip_all_space_around.
Qed.

Lemma decoder_ignores_outer_space_witness :
  toon_to_dict (NL ++ py "  " ++ py "a: 1" ++ NL ++ NL)
  = toon_to_dict (py "a: 1").
Proof.
  apply (decoder_ignores_outer_space (NL ++ py "  ") (py "a: 1") (NL ++ NL));
    reflexivity.
Defined.

(** ** The enumerations *)

Lemma first_with_value_return {E : Type} (value_of : E -> str)
    (members : list E) (t : str) (m : E) :
  NoDup (map value_of members) ->
  (first_with_value value_of members t = Return m
   <-> In m members /\ value_of m = t).
Proof.
  induction members as [|x members IH]; intros Hnd; simpl.
  - split; [discriminate | tauto].
  - inversion Hnd as [|? ? Hx Hrest]; subst.
    destruct (str_eqb (value_of x) t) eqn:Heq.
    + apply str_eqb_true in Heq. split.
      * intros H. inversion H; subst. auto.
      * intros [[->|Hin] Hv]; [reflexivity|].
        exfalso. apply Hx. rewrite Heq, <- Hv. now apply in_map.
    + apply str_eqb_false in Heq. rewrite (IH Hrest). split.
      * intros [Hin Hv]. auto.
      * intros [[->|Hin] Hv]; [contradiction | auto].
Qed.

Lemma first_with_value_raise {E : Type} (value_of : E -> str)
    (members : list E) (t : str) :
  first_with_value value_of members t = Raise ValueError
  <-> ~ In t (map value_of members).
Proof.
  induction members as [|x members IH]; simpl.
  - split; [tauto | reflexivity].
  - destruct (str_eqb (value_of x) t) eqn:Heq.
    + apply str_eqb_true in Heq. split; [discriminate|]. intros H.
      exfalso. apply H. now left.
    + apply str_eqb_false in Heq. rewrite IH. tauto.
Qed.

(** X14: [DataFormat.from_string] is case-insensitive and inverse to
    [.value]: it returns a member exactly when the lower-cased argument
    is that member's value, and raises ValueError exactly when the
    lower-cased argument is none of "json", "csv", "toon". *)
Theorem data_format_from_string (value : str) :
  (forall f, DataFormat_from_string value = Return f
             <-> lower value = DataFormat_value f)
  /\ (DataFormat_from_string value = Raise ValueError
      <-> ~ In (lower value) DataFormat_all)
  /\ (forall f, DataFormat_from_string (DataFormat_value f) = Return f).
Proof.
  assert (Hnd : NoDup (map DataFormat_value DataFormat_members)).
  { apply distinct_NoDup. reflexivity. }
  repeat split.
  - intros H. apply (first_with_value_return _ _ _ _ Hnd) in H.
    destruct H as [_ H]. now symmetry.
  - intros H. apply (first_with_value_return _ _ _ _ Hnd).
    split; [destruct f; simpl; auto | now symmetry].
  - apply first_with_value_raise.
  - apply first_with_value_raise.
  - destruct f; reflexivity.
Qed.

(** X15: [JSONStrategy.from_string] is case-insensitive and inverse to
    [.value]: it returns a member exactly when the lower-cased argument
    is that member's value, and raises ValueError exactly when the
    lower-cased argument is none of "pretty", "compact", "stringified",
    "minimal". *)
Theorem json_strategy_from_string (value : str) :
  (forall s, JSONStrategy_from_string value = Return s
             <-> lower value = JSONStrategy_value s)
  /\ (JSONStrategy_from_string value = Raise ValueError
      <-> ~ In (lower value) JSONStrategy_all)
  /\ (forall s, JSONStrategy_from_string (JSONStrategy_value s) = Return s).
Proof.
  assert (Hnd : NoDup (map JSONStrategy_value JSONStrategy_members)).
  { apply distinct_NoDup. reflexivity. }
  repeat split.
  - intros H. apply (first_with_value_return _ _ _ _ Hnd) in H.
    destruct H as [_ H]. now symmetry.
  - intros H. apply (first_with_value_return _ _ _ _ Hnd).
    split; [destruct s; simpl; auto 6 | now symmetry].
  - apply first_with_value_raise.
  - apply first_with_value_raise.
  - destruct s; reflexivity.
Qed.

(** ** The sample data sets *)

(** X16: Whatever [size] is asked for, [get_dataset] returns the small data
    set for "small", the large one for "large" and the medium one for
    anything else, and the TOON encoding of the data set it returns
    decodes to that data set. *)
Theorem sample_datasets_round_trip (size : str) :
  get_dataset size
  = (if str_eqb (py "small") size then SAMPLE_SMALL
     else if str_eqb (py "large") size then SAMPLE_LARGE
     else SAMPLE_MEDIUM)
  /\ toon_to_dict (dict_to_toon (get_dataset size))
     = Return (get_dataset size).
Proof.
  assert (H : get_dataset size
              = (if str_eqb (py "small") size then SAMPLE_SMALL
                 else if str_eqb (py "large") size then SAMPLE_LARGE
                 else SAMPLE_MEDIUM)).
  { unfold get_dataset, datasets. cbn [find fst snd].
    destruct (str_eqb (py "small") size); [reflexivity|].
    destruct (str_eqb (py "medium") size) eqn:M;
      destruct (str_eqb (py "large") size) eqn:L; try reflexivity.
    apply str_eqb_true in M. rewrite <- M in L. vm_compute in L.
    discriminate. }
  split; [exact H|]. rewrite H. apply round_trip_core.
  destruct (str_eqb (py "small") size); [vm_compute; reflexivity|].
  destruct (str_eqb (py "large") size); vm_compute; reflexivity.
Qed.
